(** * The igym memory subsystem: items, containers, links and trees

    A shallow embedding of [src/igym/memory] ([base.py], [type.py],
    [dict_memory.py], [list_memory.py], [tree_memory.py]) together with
    [src/igym/util/base.py], and the properties of it that the design
    document states.

    Modelling choices.
    - Python objects are mutable and shared, so items live in a heap
      ([heap], a list indexed by locations) and containers hold locations.
      Containers are identified by the uid under which [MemorySystem]
      registers them; a method call [m.op(..)] is [op "m" ..].
    - A Python [dict] is an insertion-ordered association list ([Dict]).
    - Every method is a computation in [M]: it takes the world, yields an
      outcome (a value, a raised exception, or the two outcomes that are
      not Python's: fuel exhausted, dangling model reference) and the world
      as left behind.  A raised exception keeps every mutation made before
      it, as in Python.
    - Recursive methods and [while] loops take fuel; [BaseMemory_read] is
      shown never to need more than two units.
    - [datetime.now()] reads the clock field [now] of the world; one method
      call runs at one instant.
    - [content] is an immutable value: a string, a number, a list, a
      dictionary or an instance of a pydantic model (a list content is not
      shared with the history entries that recorded it); [int] is [Z].
    - A [str] is the string of its code points, all below 256; a
      [datetime] is a number of seconds, and [datetime] and [timedelta]
      arithmetic raises [OverflowError] outside their ranges.
    - A [for] loop runs over the list as it is when the loop starts.  The
      loops over [children_uids] in [add_child], [become_root] and
      [TreeMemory.add] could only see the list grow under their feet if an
      item were stored under a key different from its own uid.
    - The base class [iGymException] ([igym/type/exception.py]) is not
      among the sources; it is taken to be an ordinary exception class.
    - [__getitem__], [__contains__], [retrieve], [reset] and [update] are
      not needed by any statement below and are left out. *)

From Stdlib Require Import ZArith String Ascii List Bool Lia Permutation.
From stdpp Require Import base list.
Import ListNotations.
Open Scope string_scope.
Open Scope Z_scope.
Open Scope list_scope.

(** ** Python dictionaries *)

Definition Dict (V : Type) := list (string * V).

Fixpoint dict_get {V} (k : string) (d : Dict V) : option V :=
  match d with
  | [] => None
  | (k', v) :: d' => if String.eqb k k' then Some v else dict_get k d'
  end.

Definition dict_mem {V} (k : string) (d : Dict V) : bool :=
  match dict_get k d with Some _ => true | None => false end.

(** [d[k] = v]: an existing key keeps its position, a new key goes last. *)
Fixpoint dict_set {V} (k : string) (v : V) (d : Dict V) : Dict V :=
  match d with
  | [] => [(k, v)]
  | (k', v') :: d' =>
      if String.eqb k k' then (k, v) :: d' else (k', v') :: dict_set k v d'
  end.

(** [del d[k]] (the callers test membership first). *)
Fixpoint dict_del {V} (k : string) (d : Dict V) : Dict V :=
  match d with
  | [] => []
  | (k', v') :: d' =>
      if String.eqb k k' then d' else (k', v') :: dict_del k d'
  end.

Definition dict_keys {V} (d : Dict V) : list string := map fst d.

(** ** Enumerations of [type.py] *)

Inductive MemoryItemModifyProtocol := OVERWRITE | APPEND.
Inductive MemoryItemReadProtocol := BURN_AFTER_READ | KEEP.
Inductive MemoryItemState := EXPIRED | WRITING | NORMAL.

Definition state_eqb (a b : MemoryItemState) : bool :=
  match a, b with
  | EXPIRED, EXPIRED | WRITING, WRITING | NORMAL, NORMAL => true
  | _, _ => false
  end.

(** ** Exceptions *)

Inductive exn :=
| iGymMemoryDuplicateUIDError
| iGymMemoryUnappendableError
| iGymMemoryItemDuplicateUIDError
| iGymMemoryNotFound
| iGymMemoryItemNotFound
| NotImplementedError
| TypeError
| KeyError
| ValueError
| UnboundLocalError
| AssertionError
| OverflowError.

Inductive MemClass := BaseMemoryC | DictMemoryC | ListMemoryC | TreeMemoryC.

(** [iGymMemoryItemNotFound.__init__] dispatches on the class name of its
    optional [memory] argument and itself raises [NotImplementedError] for
    everything but a [TreeMemory]; [raise iGymMemoryItemNotFound(..)]
    therefore raises what this function returns. *)
Definition new_iGymMemoryItemNotFound (memory : option MemClass) : exn :=
  match memory with
  | Some ListMemoryC => NotImplementedError
  | Some DictMemoryC => NotImplementedError
  | Some TreeMemoryC => iGymMemoryItemNotFound
  | Some BaseMemoryC => NotImplementedError
  | None => NotImplementedError
  end.

(** ** [parse_duration] of [util/base.py]

    The pattern is [(\d+d)?(\d+h)?(\d+m)?(\d+s)?], matched against the whole
    string: groups of decimal digits each followed by a unit letter, the
    units in the order d, h, m, s, each at most once.  The resulting
    [timedelta] is counted in seconds.

    A Python [str] is modelled by the Rocq string of its code points, all
    of which are below 256; among these the decimal digits ([\d], [int])
    are the ten characters 0 to 9.  Text with other characters is outside
    the model.

    [int] refuses a numeral of more than 4300 digits with [ValueError]
    (CPython's default limit on the conversion, [sys.int_max_str_digits]),
    and [timedelta] refuses 1000000000 days or more with
    [OverflowError]. *)

Inductive duration_result :=
| DurNone                 (* the falsy string: [return None] *)
| DurInvalid              (* [raise ValueError] *)
| DurOverflow             (* [raise OverflowError] *)
| DurDelta (secs : Z).

Definition digit_val (c : ascii) : option Z :=
  let n := Z.of_nat (nat_of_ascii c) in
  if (48 <=? n) && (n <=? 57) then Some (n - 48) else None.

(** Reads the longest run of digits: its value, its length, the rest. *)
Fixpoint take_digits (acc : Z) (len : nat) (s : string) : Z * nat * string :=
  match s with
  | String c s' =>
      match digit_val c with
      | Some d => take_digits (10 * acc + d) (S len) s'
      | None => (acc, len, s)
      end
  | EmptyString => (acc, len, s)
  end.

Definition int_max_str_digits : nat := 4300.

(** The first number of seconds that is too much for a [timedelta]. *)
Definition timedelta_limit : Z := 86400 * 1000000000.

Definition duration_units : list (ascii * Z) :=
  [("d"%char, 86400); ("h"%char, 3600); ("m"%char, 60); ("s"%char, 1)].

(** The units that may still follow unit [c], and the seconds [c] counts. *)
Fixpoint find_unit (c : ascii) (units : list (ascii * Z))
  : option (Z * list (ascii * Z)) :=
  match units with
  | [] => None
  | (u, w) :: rest =>
      if Ascii.eqb c u then Some (w, rest) else find_unit c rest
  end.

Fixpoint match_groups (fuel : nat) (units : list (ascii * Z)) (s : string)
  : option Z :=
  match s with
  | EmptyString => Some 0
  | _ =>
      match fuel with
      | O => None
      | S fuel' =>
          match take_digits 0 0%nat s with
          | (_, O, _) => None
          | (n, len, String c rest) =>
              if (int_max_str_digits <? len)%nat then None else
              match find_unit c units with
              | Some (w, units') =>
                  match match_groups fuel' units' rest with
                  | Some t => Some (n * w + t)
                  | None => None
                  end
              | None => None
              end
          | (_, _, EmptyString) => None
          end
      end
  end.

Definition parse_duration (duration_str : string) : duration_result :=
  match duration_str with
  | EmptyString => DurNone
  | _ =>
      match match_groups 4 duration_units duration_str with
      | Some secs =>
          if secs <? timedelta_limit then DurDelta secs else DurOverflow
      | None => DurInvalid
      end
  end.

(** ** Items *)

Abbreviation loc := nat.

(** [content: Any]: strings, numbers, lists (the values with [append]),
    dictionaries with string keys, and instances of pydantic models, each
    given by the name of its class and its fields. *)
#[local] Set Warnings "-register-all".
Inductive Content :=
| CStr (s : string)
| CNum (z : Z)
| CList (l : list Content)
| CDict (d : list (string * Content))
| CModel (cls : string) (fields : list (string * Content)).
#[local] Set Warnings "register-all".

(** What [.dict()] makes of a value: a model instance becomes the
    dictionary of its fields, also inside lists and dictionaries; every
    other value is kept. *)
Fixpoint dump_value (c : Content) : Content :=
  match c with
  | CStr s => CStr s
  | CNum z => CNum z
  | CList l => CList (map dump_value l)
  | CDict d => CDict (map (fun '(k, v) => (k, dump_value v)) d)
  | CModel _ fields => CDict (map (fun '(k, v) => (k, dump_value v)) fields)
  end.

(** A value without model instances. *)
Fixpoint plain (c : Content) : bool :=
  match c with
  | CStr _ | CNum _ => true
  | CList l => forallb plain l
  | CDict d => forallb (fun '(k, v) => plain v) d
  | CModel _ _ => false
  end.

(** Keyword values recorded in a history entry through [**kwargs]. *)
Inductive HistArg :=
| HStr (s : option string)
| HContent (c : Content).

Record HistoryEntry := mkEntry {
  h_timestamp : Z;
  h_action : string;
  h_state : MemoryItemState;
  h_content : Content;
  h_kwargs : list (string * HistArg);
  h_accessed_via : option string
}.

(** [MemoryItem], with the three fields [TreeMemoryItem] adds; [is_tree]
    tells the class of the object. *)
Record MemoryItem := mkItem {
  uid : string;
  content : Content;
  source : string;
  timestamp : Z;
  m_protocol : MemoryItemModifyProtocol;
  r_protocol : MemoryItemReadProtocol;
  bind_func : option string;
  bind_args : Dict Content;
  others : Dict Content;
  state : MemoryItemState;
  duration : option string;
  end_time : option Z;
  read_count : Z;
  last_access_time : option Z;
  last_modify_time : option Z;
  last_reader : option string;
  last_modifier : option string;
  history : list HistoryEntry;
  is_tree : bool;
  depth : Z;
  parent_uid : option string;
  children_uids : list string
}.

Definition set_uid (x : string) (it : MemoryItem) : MemoryItem :=
  let 'mkItem _ b c d e f g h i j k l m n o p q r s t u v := it in
  mkItem x b c d e f g h i j k l m n o p q r s t u v.
Definition set_content (x : Content) (it : MemoryItem) : MemoryItem :=
  let 'mkItem a _ c d e f g h i j k l m n o p q r s t u v := it in
  mkItem a x c d e f g h i j k l m n o p q r s t u v.
Definition set_state (x : MemoryItemState) (it : MemoryItem) : MemoryItem :=
  let 'mkItem a b c d e f g h i _ k l m n o p q r s t u v := it in
  mkItem a b c d e f g h i x k l m n o p q r s t u v.
Definition set_duration (x : option string) (it : MemoryItem) : MemoryItem :=
  let 'mkItem a b c d e f g h i j _ l m n o p q r s t u v := it in
  mkItem a b c d e f g h i j x l m n o p q r s t u v.
Definition set_end_time (x : option Z) (it : MemoryItem) : MemoryItem :=
  let 'mkItem a b c d e f g h i j k _ m n o p q r s t u v := it in
  mkItem a b c d e f g h i j k x m n o p q r s t u v.
Definition set_read_count (x : Z) (it : MemoryItem) : MemoryItem :=
  let 'mkItem a b c d e f g h i j k l _ n o p q r s t u v := it in
  mkItem a b c d e f g h i j k l x n o p q r s t u v.
Definition set_last_access_time (x : option Z) (it : MemoryItem) : MemoryItem :=
  let 'mkItem a b c d e f g h i j k l m _ o p q r s t u v := it in
  mkItem a b c d e f g h i j k l m x o p q r s t u v.
Definition set_last_modify_time (x : option Z) (it : MemoryItem) : MemoryItem :=
  let 'mkItem a b c d e f g h i j k l m n _ p q r s t u v := it in
  mkItem a b c d e f g h i j k l m n x p q r s t u v.
Definition set_last_reader (x : option string) (it : MemoryItem) : MemoryItem :=
  let 'mkItem a b c d e f g h i j k l m n o _ q r s t u v := it in
  mkItem a b c d e f g h i j k l m n o x q r s t u v.
Definition set_last_modifier (x : option string) (it : MemoryItem) : MemoryItem :=
  let 'mkItem a b c d e f g h i j k l m n o p _ r s t u v := it in
  mkItem a b c d e f g h i j k l m n o p x r s t u v.
Definition set_history (x : list HistoryEntry) (it : MemoryItem) : MemoryItem :=
  let 'mkItem a b c d e f g h i j k l m n o p q _ s t u v := it in
  mkItem a b c d e f g h i j k l m n o p q x s t u v.
Definition set_is_tree (x : bool) (it : MemoryItem) : MemoryItem :=
  let 'mkItem a b c d e f g h i j k l m n o p q r _ t u v := it in
  mkItem a b c d e f g h i j k l m n o p q r x t u v.
Definition set_depth (x : Z) (it : MemoryItem) : MemoryItem :=
  let 'mkItem a b c d e f g h i j k l m n o p q r s _ u v := it in
  mkItem a b c d e f g h i j k l m n o p q r s x u v.
Definition set_parent_uid (x : option string) (it : MemoryItem) : MemoryItem :=
  let 'mkItem a b c d e f g h i j k l m n o p q r s t _ v := it in
  mkItem a b c d e f g h i j k l m n o p q r s t x v.
Definition set_children_uids (x : list string) (it : MemoryItem) : MemoryItem :=
  let 'mkItem a b c d e f g h i j k l m n o p q r s t u _ := it in
  mkItem a b c d e f g h i j k l m n o p q r s t u x.

(** ** Containers and the world *)

(** One record for [BaseMemory] and its subclasses: [item_list] is
    [ListMemory]'s, [root_uids] is [TreeMemory]'s.  [item_list] may hold
    [None] (see [ListMemory_request_link]). *)
Record Memory := mkMemory {
  m_class : MemClass;
  m_uid : string;
  items : Dict loc;
  _links : Dict (string * string);
  _reverse_links : Dict (list (string * string));
  item_list : list (option string);
  root_uids : list string
}.

Definition set_items (x : Dict loc) (m : Memory) : Memory :=
  let 'mkMemory a b _ d e f g := m in mkMemory a b x d e f g.
Definition set_links (x : Dict (string * string)) (m : Memory) : Memory :=
  let 'mkMemory a b c _ e f g := m in mkMemory a b c x e f g.
Definition set_reverse_links (x : Dict (list (string * string))) (m : Memory)
  : Memory :=
  let 'mkMemory a b c d _ f g := m in mkMemory a b c d x f g.
Definition set_item_list (x : list (option string)) (m : Memory) : Memory :=
  let 'mkMemory a b c d e _ g := m in mkMemory a b c d e x g.
Definition set_root_uids (x : list string) (m : Memory) : Memory :=
  let 'mkMemory a b c d e f _ := m in mkMemory a b c d e f x.

(** [MemorySystem()._memories], the item objects, and the clock. *)
Record World := mkWorld {
  now : Z;
  heap : list MemoryItem;
  _memories : Dict Memory
}.

Definition empty_world (t : Z) : World := mkWorld t [] [].

(** ** The monad of method calls *)

Inductive outcome (A : Type) :=
| Ret (a : A)
| Raise (e : exn)
| OutOfFuel
| Dangling.
Arguments Ret {A} a.
Arguments Raise {A} e.
Arguments OutOfFuel {A}.
Arguments Dangling {A}.

Definition M (A : Type) := World -> outcome A * World.

Definition ret {A} (a : A) : M A := fun w => (Ret a, w).
Definition raise {A} (e : exn) : M A := fun w => (Raise e, w).
Definition out_of_fuel {A} : M A := fun w => (OutOfFuel, w).
Definition dangling {A} : M A := fun w => (Dangling, w).

Definition bind {A B} (m : M A) (f : A -> M B) : M B :=
  fun w =>
    match m w with
    | (Ret a, w') => f a w'
    | (Raise e, w') => (Raise e, w')
    | (OutOfFuel, w') => (OutOfFuel, w')
    | (Dangling, w') => (Dangling, w')
    end.

Notation "x <- m ;; k" := (bind m (fun x => k))
  (at level 100, m at next level, right associativity).
Notation "m ;;; k" := (bind m (fun _ => k))
  (at level 100, right associativity).

Definition get_world : M World := fun w => (Ret w, w).
Definition put_world (w : World) : M unit := fun _ => (Ret tt, w).
Definition datetime_now : M Z := fun w => (Ret (now w), w).

(** A [datetime] is the number of seconds since [datetime.min], parts of a
    second left aside; the last one is 9999-12-31 23:59:59.  [t + delta]
    for a [timedelta] of [delta] seconds, which is never negative here,
    raises [OverflowError] beyond it. *)
Definition datetime_max : Z := 315537897599.

Definition datetime_add (t delta : Z) : M Z :=
  if datetime_max <? t + delta then raise OverflowError else ret (t + delta).

(** Dereferencing an item object. *)
Definition get_item (l : loc) : M MemoryItem :=
  fun w =>
    match heap w !! l with
    | Some it => (Ret it, w)
    | None => (Dangling, w)
    end.

(** Assigning to fields of an item object. *)
Definition upd_item (l : loc) (f : MemoryItem -> MemoryItem) : M unit :=
  fun w =>
    match heap w !! l with
    | Some it => (Ret tt, mkWorld (now w) (<[l := f it]> (heap w)) (_memories w))
    | None => (Dangling, w)
    end.

(** Creating an item object. *)
Definition alloc_item (it : MemoryItem) : M loc :=
  fun w => (Ret (length (heap w)),
            mkWorld (now w) (heap w ++ [it]) (_memories w)).

(** The container object registered as [self]. *)
Definition get_self (self : string) : M Memory :=
  fun w =>
    match dict_get self (_memories w) with
    | Some m => (Ret m, w)
    | None => (Dangling, w)
    end.

(** Assigning to fields of a container object. *)
Definition upd_mem (self : string) (f : Memory -> Memory) : M unit :=
  fun w =>
    match dict_get self (_memories w) with
    | Some m =>
        (Ret tt, mkWorld (now w) (heap w) (dict_set self (f m) (_memories w)))
    | None => (Dangling, w)
    end.

(** [for x in xs: body(x)] over a list fixed when the loop starts. *)
Fixpoint for_each {A} (xs : list A) (body : A -> M unit) : M unit :=
  match xs with
  | [] => ret tt
  | x :: xs' => body x ;;; for_each xs' body
  end.

(** [assert b]. *)
Definition py_assert (b : bool) : M unit :=
  if b then ret tt else raise AssertionError.

(** ** [MemoryItem] methods *)

(** What [read] and [modify] hand back: [None], a content, a state
    sentinel, the item object itself, or a boolean. *)
Inductive PyVal :=
| PNone
| PContent (c : Content)
| PState (s : MemoryItemState)
| PItem (l : loc)
| PBool (b : bool).

Definition MemoryItem_get_expiration_time (self : loc) : M (option Z) :=
  it <- get_item self ;;
  match duration it with
  | Some (String c s) =>
      match parse_duration (String c s) with
      | DurDelta delta =>
          t <- datetime_add (timestamp it) delta ;; ret (Some t)
      | DurInvalid => raise ValueError
      | DurOverflow => raise OverflowError
      | DurNone => raise TypeError
      end
  | _ => ret (end_time it)
  end.

Definition MemoryItem_is_expired (self : loc) : M bool :=
  expiration_time <- MemoryItem_get_expiration_time self ;;
  match expiration_time with
  | None => ret false
  | Some t => n <- datetime_now ;; ret (t <? n)
  end.

Definition MemoryItem_update_history (self : loc) (action : string)
    (accessed_via : option (string * string))
    (kwargs : list (string * HistArg)) : M unit :=
  n <- datetime_now ;;
  upd_item self (fun it =>
    let entry :=
      mkEntry n action (state it) (content it) kwargs
        (match accessed_via with
         | Some (a, b) => Some (a ++ "->" ++ b)%string
         | None => None
         end) in
    set_history (history it ++ [entry]) it).

Definition MemoryItem_read (self : loc) (return_meta : bool)
    (reader : option string) (accessed_via : option (string * string))
  : M PyVal :=
  it <- get_item self ;;
  if negb (state_eqb (state it) NORMAL) then ret (PState (state it))
  else
    expired <- MemoryItem_is_expired self ;;
    if expired : bool then
      upd_item self (set_state EXPIRED) ;;;
      ret (PState EXPIRED)
    else
      n <- datetime_now ;;
      upd_item self (fun it => set_read_count (read_count it + 1) it) ;;;
      upd_item self (set_last_access_time (Some n)) ;;;
      upd_item self (set_last_reader reader) ;;;
      (match r_protocol it with
       | BURN_AFTER_READ => upd_item self (set_state EXPIRED)
       | KEEP => ret tt
       end) ;;;
      MemoryItem_update_history self "read" accessed_via
        [("reader", HStr reader)] ;;;
      if return_meta then ret (PItem self)
      else it' <- get_item self ;; ret (PContent (content it')).

Definition MemoryItem_modify (self : loc) (new_content : Content)
    (modifier : option string) (protocol : option MemoryItemModifyProtocol)
    (accessed_via : option (string * string)) : M PyVal :=
  it <- get_item self ;;
  if negb (state_eqb (state it) NORMAL) then ret (PState (state it))
  else
    expired <- MemoryItem_is_expired self ;;
    if expired : bool then
      upd_item self (set_state EXPIRED) ;;;
      ret (PState EXPIRED)
    else
      let protocol :=
        match protocol with Some p => p | None => m_protocol it end in
      (match protocol with
       | APPEND =>
           match content it with
           | CList l => upd_item self (set_content (CList (l ++ [new_content])))
           | _ => raise iGymMemoryUnappendableError
           end
       | OVERWRITE => upd_item self (set_content new_content)
       end) ;;;
      n <- datetime_now ;;
      upd_item self (set_last_modify_time (Some n)) ;;;
      upd_item self (set_last_modifier modifier) ;;;
      MemoryItem_update_history self "modify" accessed_via
        [("modifier", HStr modifier); ("new_content", HContent new_content)] ;;;
      ret (PBool true).

Definition MemoryItem_is_accessible (self : loc) : M bool :=
  it <- get_item self ;;
  if state_eqb (state it) NORMAL then
    expired <- MemoryItem_is_expired self ;; ret (negb expired)
  else ret false.

(** [_validate_expiration]: with both settings present the earlier deadline
    wins and the other setting is cleared. *)
Definition MemoryItem_validate_expiration (self : loc) : M unit :=
  it <- get_item self ;;
  match duration it, end_time it with
  | Some d, Some e =>
      match parse_duration d with
      | DurDelta delta =>
          calculated_end <- datetime_add (timestamp it) delta ;;
          if calculated_end <? e
          then upd_item self (set_end_time None)
          else upd_item self (set_duration None)
      | DurInvalid => raise ValueError
      | DurOverflow => raise OverflowError
      | DurNone => raise TypeError
      end
  | _, _ => ret tt
  end.

Definition MemoryItem_model_post_init (self : loc) : M unit :=
  MemoryItem_validate_expiration self ;;;
  MemoryItem_update_history self "init" None [].

(** [v.dict()]: the dictionary from field names to field values, written
    as the record of those values.  The values of type [Any] are dumped:
    the content, the values of [bind_args] and [others], and what the
    history entries hold. *)
Abbreviation ItemDict := MemoryItem.

Definition dump_args (d : Dict Content) : Dict Content :=
  map (fun '(k, v) => (k, dump_value v)) d.

Definition dump_kwarg (a : HistArg) : HistArg :=
  match a with
  | HStr s => HStr s
  | HContent c => HContent (dump_value c)
  end.

Definition dump_entry (e : HistoryEntry) : HistoryEntry :=
  mkEntry (h_timestamp e) (h_action e) (h_state e) (dump_value (h_content e))
    (map (fun '(k, a) => (k, dump_kwarg a)) (h_kwargs e)) (h_accessed_via e).

Definition dump_item (it : MemoryItem) : ItemDict :=
  let 'mkItem a b c d e f g h i j k l m n o p q r s t u v := it in
  mkItem a (dump_value b) c d e f g (dump_args h) (dump_args i) j k l m n o p
    q (map dump_entry r) s t u v.

Definition MemoryItem_dict (self : loc) : M ItemDict :=
  it <- get_item self ;; ret (dump_item it).

(** [item_class( **fields )]: pydantic copies the fields it declares (a
    plain [MemoryItem] ignores the tree fields, which take their defaults),
    runs [validate_duration], then [model_post_init]. *)
Definition new_item (tree_class : bool) (fields : ItemDict) : M loc :=
  (match duration fields with
   | Some d =>
       match parse_duration d with
       | DurInvalid => raise ValueError
       | DurOverflow => raise OverflowError
       | _ => ret tt
       end
   | None => ret tt
   end) ;;;
  let obj :=
    if tree_class then set_is_tree true fields
    else set_is_tree false
           (set_depth 0 (set_parent_uid None (set_children_uids [] fields))) in
  l <- alloc_item obj ;;
  MemoryItem_model_post_init l ;;;
  ret l.

(** The keyword arguments of a constructor call that gives [uid],
    [content] and [source] and leaves every other field to its default. *)
Definition default_fields (u : string) (c : Content) (src : string) (t : Z)
  : ItemDict :=
  mkItem u c src t OVERWRITE KEEP None [] [] NORMAL None None
         0 None None None None [] false 0 None [].

(** ** [MemorySystem] *)

(** [register_memory] of a container object that is not yet in the
    directory (a re-registration of the registered object itself is a
    no-op in the source and does not arise from a constructor call). *)
Definition MemorySystem_register_memory (memory : Memory) : M unit :=
  w <- get_world ;;
  if dict_mem (m_uid memory) (_memories w)
  then raise iGymMemoryDuplicateUIDError
  else put_world
         (mkWorld (now w) (heap w) (dict_set (m_uid memory) memory (_memories w))).

Definition MemorySystem_unregister_memory (u : string) : M unit :=
  w <- get_world ;;
  if dict_mem u (_memories w)
  then put_world (mkWorld (now w) (heap w) (dict_del u (_memories w)))
  else ret tt.

Definition MemorySystem_get_memory (u : string) : M Memory :=
  w <- get_world ;;
  match dict_get u (_memories w) with
  | Some m => ret m
  | None => raise iGymMemoryNotFound
  end.

Definition MemorySystem_reset : M unit :=
  w <- get_world ;;
  put_world (mkWorld (now w) (heap w) []).

(** ** [BaseMemory] *)

(** [BaseMemory.__init__], shared by the subclasses. *)
Definition new_memory (cls : MemClass) (u : string) : M string :=
  MemorySystem_register_memory (mkMemory cls u [] [] [] [] []) ;;;
  ret u.

(** [__len__]; it also decides the truth value of a container object in
    [if target_memory:]. *)
Definition BaseMemory_len (m : Memory) : nat :=
  (length (items m) + length (_links m))%nat.

Definition memory_truthy (m : Memory) : bool :=
  negb (Nat.eqb (BaseMemory_len m) 0).

(** [_resolve_link]: the target container, the target item uid and the
    pair [(self.uid, identifier)], or [None] for the triple of [None]s. *)
Definition BaseMemory_resolve_link (self identifier : string)
  : M (option (string * string * (string * string))) :=
  m <- get_self self ;;
  match dict_get identifier (_links m) with
  | Some (target_memory_uid, target_item_uid) =>
      MemorySystem_get_memory target_memory_uid ;;;
      ret (Some (target_memory_uid, target_item_uid, (m_uid m, identifier)))
  | None => ret None
  end.

Definition BaseMemory_add (self : string) (item : loc) : M string :=
  it <- get_item item ;;
  m <- get_self self ;;
  if dict_mem (uid it) (items m) then raise iGymMemoryItemDuplicateUIDError
  else
    upd_item item (set_state WRITING) ;;;
    upd_mem self (fun m => set_items (dict_set (uid it) item (items m)) m) ;;;
    upd_item item (set_state NORMAL) ;;;
    MemoryItem_update_history item "added" None [] ;;;
    ret (uid it).

(** The [while True] loop of [request_link]: follows the link tables from
    [target_memory] until [target_item_uid] is an item of the container
    reached. *)
Fixpoint find_owner (fuel : nat) (target_memory target_item_uid : string)
  : M (string * string) :=
  match fuel with
  | O => out_of_fuel
  | S fuel' =>
      tm <- get_self target_memory ;;
      if dict_mem target_item_uid (items tm) then
        ret (target_memory, target_item_uid)
      else if dict_mem target_item_uid (_links tm) then
        r <- BaseMemory_resolve_link target_memory target_item_uid ;;
        match r with
        | Some (tm', ti', _) => find_owner fuel' tm' ti'
        | None => raise TypeError
        end
      else raise (new_iGymMemoryItemNotFound None)
  end.

(** [request_link].  The function has no [return] with a value: both the
    early exit and the normal end hand back [None], written [None] here as
    well. *)
Definition BaseMemory_request_link (fuel : nat) (self target_mem_uid : string)
    (target_item_uid : string) (source_item_uid : option string)
  : M (option string) :=
  m <- get_self self ;;
  if String.eqb target_mem_uid (m_uid m) then ret None
  else
    let source_item_uid :=
      match source_item_uid with Some s => s | None => target_item_uid end in
    if dict_mem source_item_uid (items m)
    then raise iGymMemoryItemDuplicateUIDError
    else
      MemorySystem_get_memory target_mem_uid ;;;
      owner <- find_owner fuel target_mem_uid target_item_uid ;;
      let '(target_memory, target_item_uid) := owner in
      upd_mem self (fun m =>
        set_links
          (dict_set source_item_uid (target_mem_uid, target_item_uid) (_links m))
          m) ;;;
      upd_mem target_memory (fun tm =>
        if dict_mem (m_uid m) (_reverse_links tm) then tm
        else set_reverse_links (dict_set (m_uid m) [] (_reverse_links tm)) tm) ;;;
      upd_mem target_memory (fun tm =>
        let old :=
          match dict_get (m_uid m) (_reverse_links tm) with
          | Some l => l
          | None => []
          end in
        set_reverse_links
          (dict_set (m_uid m) (old ++ [(source_item_uid, target_item_uid)])%list
             (_reverse_links tm))
          tm) ;;;
      ret None.

Definition BaseMemory_revoke_link (self identifier : string) : M unit :=
  m <- get_self self ;;
  match dict_get identifier (_links m) with
  | Some (target_mem_uid, target_item_uid) =>
      upd_mem self (fun m => set_links (dict_del identifier (_links m)) m) ;;;
      target_memory <- MemorySystem_get_memory target_mem_uid ;;
      if memory_truthy target_memory then
        upd_mem target_mem_uid (fun tm =>
          let old :=
            match dict_get (m_uid m) (_reverse_links tm) with
            | Some l => l
            | None => []
            end in
          set_reverse_links
            (dict_set (m_uid m)
               (List.filter (fun p => negb (String.eqb (fst p) identifier)) old)
               (_reverse_links tm))
            tm)
      else ret tt
  | None => ret tt
  end.

(** [ListMemory.revoke_link] overrides [revoke_link]; [item_list.remove]
    drops the first occurrence. *)
Fixpoint list_remove (x : option string) (l : list (option string))
  : list (option string) :=
  match l with
  | [] => []
  | y :: l' =>
      if (match x, y with
          | Some a, Some b => String.eqb a b
          | None, None => true
          | _, _ => false
          end)
      then l' else y :: list_remove x l'
  end.

Definition opt_str_in (x : string) (l : list (option string)) : bool :=
  existsb (fun y => match y with Some b => String.eqb x b | None => false end) l.

Definition ListMemory_revoke_link (self identifier : string) : M unit :=
  m <- get_self self ;;
  if opt_str_in identifier (item_list m) then
    BaseMemory_revoke_link self identifier ;;;
    upd_mem self (fun m =>
      set_item_list (list_remove (Some identifier) (item_list m)) m)
  else ret tt.

(** [self.revoke_link(..)]: the method of the class of [self]. *)
Definition revoke_link (self identifier : string) : M unit :=
  m <- get_self self ;;
  match m_class m with
  | ListMemoryC => ListMemory_revoke_link self identifier
  | _ => BaseMemory_revoke_link self identifier
  end.

(** The keys whose forward entry is [(self.uid, identifier)]. *)
Definition keys_pointing_at (target : string * string)
    (links : Dict (string * string)) : list string :=
  map fst
    (List.filter
       (fun kv => String.eqb (fst (snd kv)) (fst target)
                  && String.eqb (snd (snd kv)) (snd target))
       links).

(** One round of the loop of [delete] over the keys of the reverse index:
    the container registered as [mem_uid], if it is truthy, loses every
    forward entry whose value is [target = (self.uid, identifier)]. *)
Definition strip_round (target : string * string) (mem_uid : string) : M unit :=
  memory <- MemorySystem_get_memory mem_uid ;;
  if memory_truthy memory then
    let keys_to_remove := keys_pointing_at target (_links memory) in
    for_each keys_to_remove (fun k =>
      upd_mem mem_uid (fun mm => set_links (dict_del k (_links mm)) mm))
  else ret tt.

(** [BaseMemory.delete].  [dyn_delete target identifier flag rfie] stands
    for the call [target_memory.delete(identifier, flag, rfie)], which
    Python dispatches on the class of [target_memory]. *)
Definition BaseMemory_delete
    (dyn_delete : string -> string -> bool -> bool -> M bool)
    (self identifier : string) (recursive return_false_if_error : bool)
  : M bool :=
  let local_deletion : M bool :=
    m <- get_self self ;;
    match dict_get identifier (items m) with
    | Some _ =>
        for_each (dict_keys (_reverse_links m))
          (strip_round (m_uid m, identifier)) ;;;
        m <- get_self self ;;
        match dict_get identifier (items m) with
        | Some item =>
            upd_item item (set_state EXPIRED) ;;;
            MemoryItem_update_history item "deleted" None [] ;;;
            upd_mem self (fun m => set_items (dict_del identifier (items m)) m) ;;;
            ret true
        | None => raise KeyError
        end
    | None =>
        if return_false_if_error then ret false
        else raise (new_iGymMemoryItemNotFound None)
    end in
  if recursive then
    r <- BaseMemory_resolve_link self identifier ;;
    match r with
    | Some (target_memory, target_item_uid, _) =>
        dyn_delete target_memory target_item_uid recursive return_false_if_error
    | None => local_deletion
    end
  else
    m <- get_self self ;;
    if dict_mem identifier (_links m) then
      revoke_link self identifier ;;; ret true
    else local_deletion.

(** [BaseMemory.read].  [kwargs] is the [**kwargs] dictionary, which only
    ever holds the key [accessed_via].  A call through a link passes
    [accessed_via] by name and [**kwargs] besides: when [kwargs] already
    holds that key, Python raises [TypeError] (multiple values for a
    keyword argument) before the callee runs. *)
Fixpoint BaseMemory_read (fuel : nat) (self identifier : string)
    (reader : option string) (return_meta return_none_if_error : bool)
    (kwargs : option (string * string)) : M PyVal :=
  match fuel with
  | O => out_of_fuel
  | S fuel' =>
      r <- BaseMemory_resolve_link self identifier ;;
      match r with
      | Some (target_memory, target_item_uid, accessed_via) =>
          match kwargs with
          | Some _ => raise TypeError
          | None =>
              BaseMemory_read fuel' target_memory target_item_uid reader
                false true (Some accessed_via)
          end
      | None =>
          m <- get_self self ;;
          match dict_get identifier (items m) with
          | Some item =>
              accessible <- MemoryItem_is_accessible item ;;
              if negb accessible then
                if return_none_if_error then ret PNone
                else it <- get_item item ;; ret (PState (state it))
              else MemoryItem_read item return_meta reader kwargs
          | None =>
              if return_none_if_error then ret PNone
              else raise (new_iGymMemoryItemNotFound None)
          end
      end
  end.

(** [BaseMemory.modify], called without extra keyword arguments. *)
Fixpoint BaseMemory_modify (fuel : nat) (self identifier : string)
    (new_content : Content) (recursive : bool) (modifier : option string)
    (return_false_if_error : bool) : M PyVal :=
  match fuel with
  | O => out_of_fuel
  | S fuel' =>
      m <- get_self self ;;
      let modifier :=
        match modifier with Some x => x | None => m_uid m end in
      let local : M PyVal :=
        if dict_mem identifier (_links m) then ret (PBool false)
        else
          match dict_get identifier (items m) with
          | Some item =>
              accessible <- MemoryItem_is_accessible item ;;
              if negb accessible then
                if return_false_if_error then ret (PBool false)
                else it <- get_item item ;; ret (PState (state it))
              else
                MemoryItem_modify item new_content (Some modifier) None None ;;;
                ret (PBool true)
          | None =>
              if return_false_if_error then ret (PBool false)
              else raise (new_iGymMemoryItemNotFound None)
          end in
      if recursive then
        r <- BaseMemory_resolve_link self identifier ;;
        match r with
        | Some (target_memory, target_item_uid, _) =>
            tm <- get_self target_memory ;;
            if memory_truthy tm then
              BaseMemory_modify fuel' target_memory target_item_uid new_content
                recursive (Some (m_uid m)) return_false_if_error
            else local
        | None => local
        end
      else local
  end.

(** ** [DictMemory] and [ListMemory] *)

Definition DictMemory_add (self : string) (item : loc) (key : option string)
  : M string :=
  (match key with
   | Some k => upd_item item (set_uid k)
   | None => ret tt
   end) ;;;
  BaseMemory_add self item.

(** [list.insert(index, x)]: a negative index counts from the end, and an
    index outside the list is clamped to its ends. *)
Definition py_list_insert {A} (index : Z) (x : A) (l : list A) : list A :=
  let len := Z.of_nat (length l) in
  let i := if index <? 0 then Z.max 0 (len + index) else Z.min index len in
  (firstn (Z.to_nat i) l ++ x :: skipn (Z.to_nat i) l)%list.

Definition ListMemory_add (self : string) (item : loc) (index : option Z)
  : M string :=
  u <- BaseMemory_add self item ;;
  upd_mem self (fun m =>
    set_item_list
      (match index with
       | None => (item_list m ++ [Some u])%list
       | Some i => py_list_insert i (Some u) (item_list m)
       end) m) ;;;
  ret u.

(** [ListMemory.request_link] records what the base method handed back in
    [item_list] and returns the position. *)
Definition ListMemory_request_link (fuel : nat) (self target_mem_uid : string)
    (target_item_uid : string) (source_item_uid : option string)
    (index : option Z) : M Z :=
  u <- BaseMemory_request_link fuel self target_mem_uid target_item_uid
         source_item_uid ;;
  m <- get_self self ;;
  match index with
  | None =>
      upd_mem self (fun m => set_item_list (item_list m ++ [u])%list m) ;;;
      ret (Z.of_nat (length (item_list m)))
  | Some i =>
      upd_mem self (fun m => set_item_list (py_list_insert i u (item_list m)) m) ;;;
      ret i
  end.

(** [ListMemory.delete] by position ([inl]) or by key ([inr]).  In the
    branch for a key the local variable [index] is read by
    [identifier in index] before anything is assigned to it, which Python
    answers with [UnboundLocalError]. *)
Definition ListMemory_delete
    (dyn_delete : string -> string -> bool -> bool -> M bool)
    (self : string) (identifier : Z + string)
    (recursive return_false_if_error : bool) : M bool :=
  m <- get_self self ;;
  match identifier with
  | inl index =>
      if (Z.of_nat (length (item_list m)) <=? index) || (index <? 0) then
        if return_false_if_error then ret false
        else raise (new_iGymMemoryItemNotFound (Some (m_class m)))
      else
        match item_list m !! Z.to_nat index with
        | Some (Some identifier) =>
            st <- BaseMemory_delete dyn_delete self identifier recursive
                    return_false_if_error ;;
            if st : bool then
              m <- get_self self ;;
              if opt_str_in identifier (item_list m) then
                upd_mem self (fun m =>
                  set_item_list (list_remove (Some identifier) (item_list m)) m) ;;;
                ret st
              else raise ValueError
            else ret st
        | Some None =>
            (* [super().delete(None, ..)]: [None] names no link and no item *)
            if return_false_if_error then ret false
            else raise (new_iGymMemoryItemNotFound None)
        | None => dangling
        end
  | inr _ => raise UnboundLocalError
  end.

(** ** [TreeMemoryItem] *)

Fixpoint str_remove (x : string) (l : list string) : list string :=
  match l with
  | [] => []
  | y :: l' => if String.eqb x y then l' else y :: str_remove x l'
  end.

Definition str_in (x : string) (l : list string) : bool :=
  existsb (String.eqb x) l.

Definition TreeMemoryItem_remove_child (self : loc) (child : option loc)
    (child_uid : option string) : M unit :=
  let remove (u : string) : M unit :=
    s <- get_item self ;;
    if str_in u (children_uids s)
    then upd_item self (fun s => set_children_uids (str_remove u (children_uids s)) s)
    else ret tt in
  match child, child_uid with
  | Some c, _ => ci <- get_item c ;; remove (uid ci)
  | None, Some (String a b) => remove (String a b)
  | None, _ => ret tt
  end.

(** The body of [add_child] before its [if recursive_depth:]. *)
Definition TreeMemoryItem_add_child_step (self child : loc) : M unit :=
  s <- get_item self ;;
  upd_item child (set_parent_uid (Some (uid s))) ;;;
  s <- get_item self ;;
  upd_item child (set_depth (depth s + 1)) ;;;
  c <- get_item child ;;
  s <- get_item self ;;
  if str_in (uid c) (children_uids s) then ret tt
  else upd_item self (fun s => set_children_uids (children_uids s ++ [uid c])%list s).

Definition dict_truthy {V} (d : option (Dict V)) : bool :=
  match d with Some (_ :: _) => true | _ => false end.

Definition py_getitem {V} (k : string) (d : option (Dict V)) : M V :=
  match d with
  | Some d =>
      match dict_get k d with
      | Some v => ret v
      | None => raise KeyError
      end
  | None => raise TypeError
  end.

(** [add_child].  The inner call [child.add_child(child_child)] leaves
    [recursive_depth] at its default [False], so it is the plain step. *)
Definition TreeMemoryItem_add_child (self child : loc) (recursive_depth : bool)
    (all_items : option (Dict loc)) : M unit :=
  TreeMemoryItem_add_child_step self child ;;;
  if recursive_depth then
    py_assert (dict_truthy all_items) ;;;
    c <- get_item child ;;
    for_each (children_uids c) (fun child_child_uid =>
      child_child <- py_getitem child_child_uid all_items ;;
      TreeMemoryItem_add_child_step child child_child)
  else ret tt.

Definition TreeMemoryItem_become_root (self : loc) (recursive_depth : bool)
    (all_items : option (Dict loc)) : M string :=
  upd_item self (set_parent_uid None) ;;;
  upd_item self (set_depth 0) ;;;
  (if recursive_depth then
     py_assert (dict_truthy all_items) ;;;
     s <- get_item self ;;
     for_each (children_uids s) (fun child_uid =>
       child <- py_getitem child_uid all_items ;;
       TreeMemoryItem_add_child self child recursive_depth all_items)
   else ret tt) ;;;
  s <- get_item self ;;
  ret (uid s).

(** ** [TreeMemory] *)

Definition TreeMemory_add (self : string) (item : loc)
    (parent_uid : option string) : M string :=
  it <- get_item item ;;
  tree_item <- (if is_tree it then ret item
                else d <- MemoryItem_dict item ;; new_item true d) ;;
  upd_item tree_item (set_parent_uid parent_uid) ;;;
  u <- BaseMemory_add self tree_item ;;
  match parent_uid with
  | None =>
      upd_item tree_item (set_depth 0) ;;;
      upd_mem self (fun m => set_root_uids (root_uids m ++ [u])%list m) ;;;
      ti <- get_item tree_item ;;
      for_each (children_uids ti) (fun child_uid =>
        m <- get_self self ;;
        child <- py_getitem child_uid (Some (items m)) ;;
        TreeMemoryItem_add_child tree_item child true (Some (items m))) ;;;
      ret u
  | Some p =>
      m <- get_self self ;;
      match dict_get p (items m) with
      | None => raise (new_iGymMemoryItemNotFound (Some (m_class m)))
      | Some parent =>
          pi <- get_item parent ;;
          py_assert (is_tree pi) ;;;
          TreeMemoryItem_add_child parent tree_item true (Some (items m)) ;;;
          ret u
      end
  end.

Definition lower_ascii (c : ascii) : ascii :=
  let n := nat_of_ascii c in
  if (Nat.leb 65 n && Nat.leb n 90)%bool then ascii_of_nat (n + 32) else c.

Fixpoint str_lower (s : string) : string :=
  match s with
  | EmptyString => EmptyString
  | String c s' => String (lower_ascii c) (str_lower s')
  end.

(** What [traverse] returns: a flat list, or one list per level. *)
Inductive TraverseResult :=
| Flat (results : list PyVal)
| Layers (results : list (list PyVal)).

(** The accumulator [results] together with the log of the calls
    [func(current=.., parent=..)] made so far, each as the pair of the
    two item objects passed.  The visitor only observes. *)
Definition Calls := list (loc * option loc).

Definition visited_value (return_meta : bool) (current : loc) : M PyVal :=
  if return_meta then ret (PItem current)
  else it <- get_item current ;; ret (PContent (content it)).

(** [if func: func(current=current, parent=..)]. *)
Definition call_func (with_func : bool) (self : string) (current : loc)
    (calls : Calls) : M Calls :=
  if with_func then
    it <- get_item current ;;
    match parent_uid it with
    | None => ret (calls ++ [(current, None)])%list
    | Some p =>
        m <- get_self self ;;
        parent <- py_getitem p (Some (items m)) ;;
        ret (calls ++ [(current, Some parent)])%list
    end
  else ret calls.

(** [for uid in current.children_uids: recursive_traverse(uid, order=order)],
    with [visit] for the recursive call. *)
Fixpoint traverse_children
    (visit : string -> list PyVal * Calls -> M (list PyVal * Calls))
    (uids : list string) (acc : list PyVal * Calls)
  : M (list PyVal * Calls) :=
  match uids with
  | [] => ret acc
  | u :: uids' => acc' <- visit u acc ;; traverse_children visit uids' acc'
  end.

Fixpoint recursive_traverse (fuel : nat) (self : string) (with_func : bool)
    (return_meta : bool) (order : string) (current_uid : string)
    (acc : list PyVal * Calls) {struct fuel} : M (list PyVal * Calls) :=
  match fuel with
  | O => out_of_fuel
  | S fuel' =>
      m <- get_self self ;;
      match dict_get current_uid (items m) with
      | None => ret acc
      | Some current =>
          calls <- call_func with_func self current (snd acc) ;;
          results <- (if String.eqb order "pre"
                      then v <- visited_value return_meta current ;;
                           ret (fst acc ++ [v])%list
                      else ret (fst acc)) ;;
          it <- get_item current ;;
          acc <- traverse_children
                   (recursive_traverse fuel' self with_func return_meta order)
                   (children_uids it) (results, calls) ;;
          if String.eqb order "post"
          then v <- visited_value return_meta current ;;
               ret ((fst acc ++ [v])%list, snd acc)
          else ret acc
      end
  end.

(** One round of the [while queue:] loop of [layer_traverse]: the
    [level_size] uids waiting in the queue are taken out in order, and the
    queue is left holding their children. *)
Fixpoint layer_level (self : string) (with_func return_meta : bool)
    (queue : list string) (acc : list PyVal * list string * Calls)
  : M (list PyVal * list string * Calls) :=
  match queue with
  | [] => ret acc
  | current_uid :: queue' =>
      let '(current_level, next, calls) := acc in
      m <- get_self self ;;
      current <- py_getitem current_uid (Some (items m)) ;;
      v <- visited_value return_meta current ;;
      it <- get_item current ;;
      calls <- call_func with_func self current calls ;;
      layer_level self with_func return_meta queue'
        ((current_level ++ [v])%list, (next ++ children_uids it)%list, calls)
  end.

Fixpoint layer_loop (fuel : nat) (self : string) (with_func return_meta : bool)
    (queue : list string) (acc : list (list PyVal) * Calls)
  : M (list (list PyVal) * Calls) :=
  match queue with
  | [] => ret acc
  | _ =>
      match fuel with
      | O => out_of_fuel
      | S fuel' =>
          let '(results, calls) := acc in
          r <- layer_level self with_func return_meta queue ([], [], calls) ;;
          let '(current_level, next, calls) := r in
          layer_loop fuel' self with_func return_meta next
            ((results ++ [current_level])%list, calls)
      end
  end.

Definition layer_traverse (fuel : nat) (self : string)
    (with_func return_meta : bool) (current_uid : string)
  : M (list (list PyVal) * Calls) :=
  m <- get_self self ;;
  if dict_mem current_uid (items m)
  then layer_loop fuel self with_func return_meta [current_uid] ([], [])
  else ret ([], []).

Definition TreeMemory_traverse (fuel : nat) (self u : string) (order : string)
    (with_func return_meta : bool) : M (TraverseResult * Calls) :=
  let order := str_lower order in
  py_assert (str_in order ["pre"; "post"; "layer"]) ;;;
  if String.eqb order "layer" then
    r <- layer_traverse fuel self with_func return_meta u ;;
    ret (Layers (fst r), snd r)
  else
    r <- recursive_traverse fuel self with_func return_meta order u ([], []) ;;
    ret (Flat (fst r), snd r).

Definition str_list_remove_or_raise (self : string) (x : string) : M unit :=
  m <- get_self self ;;
  if str_in x (root_uids m)
  then upd_mem self (fun m => set_root_uids (str_remove x (root_uids m)) m)
  else raise ValueError.

(** The loop of [TreeMemory.delete] over the children:
    [state = self.delete(child_uid, with_children=True, ..)] and
    [pre_state = state and pre_state]. *)
Fixpoint delete_children
    (dyn_delete : string -> string -> bool -> bool -> M bool)
    (self : string) (return_false_if_error : bool) (uids : list string)
    (pre_state : bool) : M bool :=
  match uids with
  | [] => ret pre_state
  | child_uid :: uids' =>
      st <- dyn_delete self child_uid true return_false_if_error ;;
      delete_children dyn_delete self return_false_if_error uids'
        (st && pre_state)
  end.

(** [TreeMemory.delete].  [dyn_delete] serves both the call
    [self.delete(..)] made for each child and the dispatch inside
    [BaseMemory.delete]. *)
Definition TreeMemory_delete
    (dyn_delete : string -> string -> bool -> bool -> M bool)
    (self identifier : string) (with_children return_false_if_error : bool)
  : M bool :=
  m <- get_self self ;;
  match dict_get identifier (items m) with
  | None =>
      if return_false_if_error then ret false
      else raise (new_iGymMemoryItemNotFound (Some (m_class m)))
  | Some item =>
      it <- get_item item ;;
      parent <- (match parent_uid it with
                 | None => ret None
                 | Some p => pl <- py_getitem p (Some (items m)) ;; ret (Some pl)
                 end) ;;
      if with_children then
        pre_state <- delete_children dyn_delete self return_false_if_error
                       (children_uids it) true ;;
        if pre_state : bool then
          pre_state <- BaseMemory_delete dyn_delete self identifier false
                         return_false_if_error ;;
          (if pre_state : bool then
             match parent with
             | Some pl =>
                 it <- get_item item ;;
                 TreeMemoryItem_remove_child pl None (Some (uid it))
             | None => str_list_remove_or_raise self identifier
             end
           else ret tt) ;;;
          ret pre_state
        else ret pre_state
      else
        let child_uids := children_uids it in
        success <- BaseMemory_delete dyn_delete self identifier false
                     return_false_if_error ;;
        if negb success then ret success
        else
          (match parent with
           | Some pl => TreeMemoryItem_remove_child pl None (Some identifier)
           | None =>
               m <- get_self self ;;
               if str_in identifier (root_uids m)
               then upd_mem self (fun m =>
                      set_root_uids (str_remove identifier (root_uids m)) m)
               else ret tt
           end) ;;;
          for_each child_uids (fun child_uid =>
            m <- get_self self ;;
            child <- py_getitem child_uid (Some (items m)) ;;
            match parent with
            | Some pl =>
                TreeMemoryItem_add_child pl child true (Some (items m))
            | None =>
                upd_mem self (fun m =>
                  set_root_uids (root_uids m ++ [child_uid])%list m) ;;;
                m <- get_self self ;;
                TreeMemoryItem_become_root child true (Some (items m)) ;;;
                ret tt
            end) ;;;
          ret success
  end.

(** [memory.delete(identifier, flag, return_false_if_error)] with the
    arguments passed by position: the method of the class of [memory].
    [flag] is [recursive], or [with_children] for a [TreeMemory]. *)
Fixpoint delete (fuel : nat) (memory identifier : string)
    (flag return_false_if_error : bool) : M bool :=
  match fuel with
  | O => out_of_fuel
  | S fuel' =>
      m <- get_self memory ;;
      match m_class m with
      | TreeMemoryC =>
          TreeMemory_delete (delete fuel') memory identifier flag
            return_false_if_error
      | ListMemoryC =>
          ListMemory_delete (delete fuel') memory (inr identifier) flag
            return_false_if_error
      | _ =>
          BaseMemory_delete (delete fuel') memory identifier flag
            return_false_if_error
      end
  end.

(** ** Snapshots *)

Record SaveData := mkSave {
  d_uid : string;
  d_items : Dict ItemDict;
  d_links : Dict (string * string);
  d_type : MemClass;
  d_item_list : option (list (option string));
  d_root_uids : option (list string)
}.

Fixpoint dump_items (its : Dict loc) : M (Dict ItemDict) :=
  match its with
  | [] => ret []
  | (k, v) :: rest =>
      d <- MemoryItem_dict v ;;
      ds <- dump_items rest ;;
      ret ((k, d) :: ds)
  end.

Definition BaseMemory_save (self : string) : M SaveData :=
  m <- get_self self ;;
  ds <- dump_items (items m) ;;
  ret (mkSave (m_uid m) ds (_links m) (m_class m) None None).

Definition ListMemory_save (self : string) : M SaveData :=
  data <- BaseMemory_save self ;;
  m <- get_self self ;;
  ret (mkSave (d_uid data) (d_items data) (d_links data) (d_type data)
         (Some (item_list m)) (d_root_uids data)).

Definition TreeMemory_save (self : string) : M SaveData :=
  data <- BaseMemory_save self ;;
  m <- get_self self ;;
  ret (mkSave (d_uid data) (d_items data) (d_links data) (d_type data)
         (d_item_list data) (Some (root_uids m))).

(** [BaseMemory.load] as the class method of [cls], building the items
    with [item_class]. *)
Definition BaseMemory_load (cls : MemClass) (data : SaveData)
    (item_class_is_tree : bool) : M string :=
  memory <- new_memory cls (d_uid data) ;;
  for_each (d_items data) (fun kv =>
    item <- new_item item_class_is_tree (snd kv) ;;
    upd_mem memory (fun m => set_items (dict_set (fst kv) item (items m)) m)) ;;;
  upd_mem memory (set_links (d_links data)) ;;;
  ret memory.

Definition ListMemory_load (data : SaveData) : M string :=
  memory <- BaseMemory_load ListMemoryC data false ;;
  upd_mem memory (set_item_list
    (match d_item_list data with Some l => l | None => [] end)) ;;;
  ret memory.

Definition TreeMemory_load (data : SaveData) : M string :=
  memory <- BaseMemory_load TreeMemoryC data true ;;
  upd_mem memory (set_root_uids
    (match d_root_uids data with Some l => l | None => [] end)) ;;;
  ret memory.

(** [c.save()] and [cls.load(data)], by class. *)
Definition save (self : string) : M SaveData :=
  m <- get_self self ;;
  match m_class m with
  | ListMemoryC => ListMemory_save self
  | TreeMemoryC => TreeMemory_save self
  | _ => BaseMemory_save self
  end.

Definition load (cls : MemClass) (data : SaveData) : M string :=
  match cls with
  | ListMemoryC => ListMemory_load data
  | TreeMemoryC => TreeMemory_load data
  | _ => BaseMemory_load cls data false
  end.

(** ** Observing a world *)

Definition exec {A} (m : M A) (w : World) : World := snd (m w).
Definition result {A} (m : M A) (w : World) : outcome A := fst (m w).

Definition mem_of (w : World) (u : string) : option Memory :=
  dict_get u (_memories w).

Definition links_of (w : World) (u : string) : Dict (string * string) :=
  match mem_of w u with Some m => _links m | None => [] end.

Definition reverse_links_of (w : World) (u : string)
  : Dict (list (string * string)) :=
  match mem_of w u with Some m => _reverse_links m | None => [] end.

Definition item_keys_of (w : World) (u : string) : list string :=
  match mem_of w u with Some m => dict_keys (items m) | None => [] end.

(** The item object stored under key [k] of container [u]. *)
Definition item_in (w : World) (u k : string) : option MemoryItem :=
  match mem_of w u with
  | Some m =>
      match dict_get k (items m) with
      | Some l => heap w !! l
      | None => None
      end
  | None => None
  end.

Definition state_at (w : World) (l : loc) : option MemoryItemState :=
  option_map state (heap w !! l).

(** The tree depth invariant at one item, and over a whole container:
    cached depth 0 without a parent, the parent's cached depth plus 1
    otherwise. *)
Definition depth_ok (w : World) (m : Memory) (l : loc) : bool :=
  match heap w !! l with
  | Some it =>
      match parent_uid it with
      | None => depth it =? 0
      | Some p =>
          match dict_get p (items m) with
          | Some pl =>
              match heap w !! pl with
              | Some parent => depth it =? depth parent + 1
              | None => false
              end
          | None => false
          end
      end
  | None => false
  end.

Definition depth_invariant (w : World) (tree : string) : bool :=
  match mem_of w tree with
  | Some m => forallb (fun kv => depth_ok w m (snd kv)) (items m)
  | None => false
  end.

(** ** Vocabulary of the statements *)

(** Every value a computation returns satisfies [P]. *)
Definition returns {A} (P : A -> Prop) (m : M A) : Prop :=
  forall w a w', m w = (Ret a, w') -> P a.

(** A relation [R] between the world before and the world after that a
    computation respects, whatever its outcome. *)
Definition preserves (R : World -> World -> Prop) {A} (m : M A) : Prop :=
  forall w, R w (snd (m w)).

(** The uids of the items handed to the visitor, call by call. *)
Definition calls_by_uid (w : World) (calls : Calls)
  : list (option string * option (option string)) :=
  map (fun c =>
         (option_map uid (heap w !! fst c),
          option_map (fun p => option_map uid (heap w !! p)) (snd c)))
      calls.

(** Every item object that is [EXPIRED] before is [EXPIRED] after. *)
Definition expired_stable (w w' : World) : Prop :=
  forall l, state_at w l = Some EXPIRED -> state_at w' l = Some EXPIRED.

(** What [load] rebuilds from the saved fields of [it] at time [t]: the
    same fields, with one more entry, [init], at the end of the history. *)
Definition reloaded (t : Z) (it : MemoryItem) : MemoryItem :=
  set_history
    (history it ++ [mkEntry t "init" (state it) (content it) [] None]) it.

(** What [load] makes of the item [it] that [save] has dumped. *)
Definition restored (t : Z) (it : MemoryItem) : MemoryItem :=
  reloaded t (dump_item it).

(** An item that holds no model instance: not as its content, not in
    [bind_args] or [others], not in its history. *)
Definition plain_entry (e : HistoryEntry) : bool :=
  plain (h_content e)
  && forallb (fun '(k, a) =>
                match a with HStr _ => true | HContent c => plain c end)
       (h_kwargs e).

Definition plain_item (it : MemoryItem) : bool :=
  plain (content it)
  && forallb (fun '(k, v) => plain v) (bind_args it)
  && forallb (fun '(k, v) => plain v) (others it)
  && forallb plain_entry (history it).

(** No item of the container holds a model instance. *)
Definition plain_items (w : World) (m : Memory) : bool :=
  forallb
    (fun kl =>
       match heap w !! snd kl with
       | Some it => plain_item it
       | None => true
       end)
    (items m).

(** An item as a constructor call leaves it, of the class that the
    [load] of a container of class [cls] builds: the duration string
    parses to a [timedelta], at most one of [duration] and [end_time] is
    set, and the item is a [TreeMemoryItem] exactly in a tree. *)
Definition saved_item_ok (cls : MemClass) (it : MemoryItem) : bool :=
  match duration it with
  | Some d =>
      match parse_duration d with
      | DurInvalid | DurOverflow => false
      | _ => match end_time it with Some _ => false | None => true end
      end
  | None => true
  end
  &&
  match cls with
  | TreeMemoryC => is_tree it
  | _ =>
      negb (is_tree it) && (depth it =? 0)
      && match parent_uid it with None => true | Some _ => false end
      && match children_uids it with [] => true | _ => false end
  end.

Definition class_builds_tree_items (cls : MemClass) : bool :=
  match cls with TreeMemoryC => true | _ => false end.

Fixpoint keys_distinct (ks : list string) : bool :=
  match ks with
  | [] => true
  | k :: rest => negb (str_in k rest) && keys_distinct rest
  end.

(** A registered container that a snapshot can be taken of: it is
    registered under its own uid, its items dictionary has distinct keys,
    and every item is a live object satisfying [saved_item_ok]. *)
Definition savable (w : World) (self : string) (m : Memory) : bool :=
  String.eqb (m_uid m) self
  && keys_distinct (dict_keys (items m))
  && forallb
       (fun kl =>
          match heap w !! snd kl with
          | Some it => saved_item_ok (m_class m) it
          | None => false
          end)
       (items m).

(** The round trip through a snapshot.  [save] of the registered container
    [m] returns a snapshot and changes nothing; in any world [w1] holding
    the same item objects where the uid is free (as after
    [MemorySystem.reset()]), [load] of that snapshot registers a container
    of the same class with the same forward link table, an empty reverse
    index, the same order list (ordered container) or root list (tree),
    the same keys in the same order and, under each key, a new item object
    that is [rebuilt (now w1) it] for the original item [it]. *)
Definition loads_back (rebuilt : Z -> MemoryItem -> MemoryItem) (w : World)
    (self : string) (m : Memory) : Prop :=
  exists data,
    save self w = (Ret data, w) /\
    forall w1, heap w1 = heap w -> mem_of w1 self = None ->
      exists w2 m',
        load (m_class m) data w1 = (Ret self, w2) /\
        mem_of w2 self = Some m' /\
        m_class m' = m_class m /\
        m_uid m' = m_uid m /\
        _links m' = _links m /\
        _reverse_links m' = [] /\
        (m_class m = ListMemoryC -> item_list m' = item_list m) /\
        (m_class m = TreeMemoryC -> root_uids m' = root_uids m) /\
        dict_keys (items m') = dict_keys (items m) /\
        forall k l it,
          dict_get k (items m) = Some l -> heap w !! l = Some it ->
          exists l', dict_get k (items m') = Some l' /\
                     heap w2 !! l' = Some (rebuilt (now w1) it).

(** What a traversal appends to its results for the item object [l]. *)
Definition value_of (w : World) (return_meta : bool) (l : loc)
  : option PyVal :=
  if return_meta then Some (PItem l)
  else option_map (fun it => PContent (content it)) (heap w !! l).

(** The arguments [(current, parent)] that belong to the item object [l]
    of container [m]: [l] itself and the object stored under its
    [parent_uid], if it has one. *)
Definition call_of (w : World) (m : Memory) (l : loc)
  : option (loc * option loc) :=
  match heap w !! l with
  | Some it =>
      match parent_uid it with
      | None => Some (l, None)
      | Some p =>
          match dict_get p (items m) with
          | Some parent => Some (l, Some parent)
          | None => None
          end
      end
  | None => None
  end.

(** The visitor was called once for each result: every call passes an
    item and its parent, and the results are, up to their order, the
    values of the items passed, call by call. *)
Definition visited_once (w : World) (m : Memory) (return_meta : bool)
    (calls : Calls) (results : list PyVal) : Prop :=
  Forall (fun c => call_of w m (fst c) = Some c) calls /\
  Permutation (map Some results)
              (map (fun c => value_of w return_meta (fst c)) calls).

Definition all_results (r : TraverseResult) : list PyVal :=
  match r with
  | Flat results => results
  | Layers results => concat results
  end.

(** What one visit adds to the accumulator of a traversal: results and
    calls that satisfy [visited_once]. *)
Definition extends_once (w : World) (m : Memory) (rm : bool)
    (acc acc' : list PyVal * Calls) : Prop :=
  exists results calls,
    fst acc' = fst acc ++ results /\
    snd acc' = snd acc ++ calls /\
    visited_once w m rm calls results.

(** A traversal run, with the visitor's calls reported by uid. *)
Definition traverse_by_uid (fuel : nat) (self u order : string)
    (with_func return_meta : bool) (w : World)
  : outcome (TraverseResult * list (option string * option (option string))) :=
  match result (TreeMemory_traverse fuel self u order with_func return_meta) w with
  | Ret (r, calls) => Ret (r, calls_by_uid w calls)
  | Raise e => Raise e
  | OutOfFuel => OutOfFuel
  | Dangling => Dangling
  end.

(** A step of a traversal with the visitor, and the same step without
    it: when the first returns, it has changed nothing, and the second
    returns the same results and leaves the log of calls alone. *)
Definition quiet {R} (with_visitor without : R * Calls -> M (R * Calls))
  : Prop :=
  forall r c r' c' w w',
    with_visitor (r, c) w = (Ret (r', c'), w') ->
    w' = w /\ forall c0, without (r, c0) w = (Ret (r', c0), w).

(** A step of a traversal without the visitor: when it returns, it has
    changed nothing and the log of calls is as it was. *)
Definition silent {R} (run : R * Calls -> M (R * Calls)) : Prop :=
  forall r c r' c' w w',
    run (r, c) w = (Ret (r', c'), w') -> w' = w /\ c' = c.

(** A computation that never runs out of fuel. *)
Definition has_fuel {A} (m : M A) : Prop :=
  forall w, fst (m w) <> OutOfFuel.

(** Every registered container's link table has distinct keys. *)
Definition links_wf (w : World) : Prop :=
  forall c mc, mem_of w c = Some mc -> List.NoDup (dict_keys (_links mc)).

(** Forward entries are only ever removed: from well-formed link tables
    a step leaves well-formed tables, and whatever a table holds after, it
    held before. *)
Definition links_shrink (w w' : World) : Prop :=
  links_wf w ->
  links_wf w' /\
  forall c k v,
    dict_get k (links_of w' c) = Some v -> dict_get k (links_of w c) = Some v.

(** No forward entry of container [c] points at [target]. *)
Definition no_entry (w : World) (c : string) (target : string * string)
  : Prop :=
  forall k, dict_get k (links_of w c) <> Some target.

(** ** Scenarios, built with the public operations *)

(** [MemoryItem(uid=u, content=c, source="test")] and the same for
    [TreeMemoryItem]. *)
Definition new_MemoryItem (u c : string) : M loc :=
  t <- datetime_now ;; new_item false (default_fields u (CStr c) "test" t).

Definition new_TreeMemoryItem (u c : string) : M loc :=
  t <- datetime_now ;; new_item true (default_fields u (CStr c) "test" t).

(** [mem1] owns [i1]; [mem2] links to it under the key [k]. *)
Definition link_scene : M unit :=
  new_memory BaseMemoryC "mem1" ;;;
  new_memory BaseMemoryC "mem2" ;;;
  i <- new_MemoryItem "i1" "shared" ;;
  BaseMemory_add "mem1" i ;;;
  BaseMemory_request_link 10 "mem2" "mem1" "i1" (Some "k") ;;;
  ret tt.

(** [mem1] owns [i1]; [mem2] links to it under the default key [i1];
    [mem3] links to [mem2]'s key under [k3]. *)
Definition chain_scene : M unit :=
  new_memory BaseMemoryC "mem1" ;;;
  new_memory BaseMemoryC "mem2" ;;;
  new_memory BaseMemoryC "mem3" ;;;
  i <- new_MemoryItem "i1" "shared" ;;
  BaseMemory_add "mem1" i ;;;
  BaseMemory_request_link 10 "mem2" "mem1" "i1" None ;;;
  BaseMemory_request_link 10 "mem3" "mem2" "i1" (Some "k3") ;;;
  ret tt.

(** Root [R] with children [A], [B] in this order; [A] has the child [C]. *)
Definition tree_scene : M unit :=
  new_memory TreeMemoryC "tree" ;;;
  r <- new_TreeMemoryItem "R" "R" ;;
  a <- new_TreeMemoryItem "A" "A" ;;
  b <- new_TreeMemoryItem "B" "B" ;;
  c <- new_TreeMemoryItem "C" "C" ;;
  TreeMemory_add "tree" r None ;;;
  TreeMemory_add "tree" a (Some "R") ;;;
  TreeMemory_add "tree" b (Some "R") ;;;
  TreeMemory_add "tree" c (Some "A") ;;;
  ret tt.

(** The path [R - A - B - C - D]. *)
Definition deep_tree_scene : M unit :=
  new_memory TreeMemoryC "tree" ;;;
  r <- new_TreeMemoryItem "R" "R" ;;
  a <- new_TreeMemoryItem "A" "A" ;;
  b <- new_TreeMemoryItem "B" "B" ;;
  c <- new_TreeMemoryItem "C" "C" ;;
  d <- new_TreeMemoryItem "D" "D" ;;
  TreeMemory_add "tree" r None ;;;
  TreeMemory_add "tree" a (Some "R") ;;;
  TreeMemory_add "tree" b (Some "A") ;;;
  TreeMemory_add "tree" c (Some "B") ;;;
  TreeMemory_add "tree" d (Some "C") ;;;
  ret tt.

(** One container of each class; the ordered one holds [k1], [k2]. *)
Definition containers_scene : M unit :=
  new_memory BaseMemoryC "base" ;;;
  new_memory DictMemoryC "dict" ;;;
  new_memory ListMemoryC "list" ;;;
  new_memory TreeMemoryC "tree" ;;;
  x <- new_MemoryItem "k1" "one" ;;
  y <- new_MemoryItem "k2" "two" ;;
  z <- new_MemoryItem "i1" "shared" ;;
  ListMemory_add "list" x None ;;;
  ListMemory_add "list" y None ;;;
  BaseMemory_add "base" z ;;;
  ret tt.

(** A container with one item, as in the serialization test. *)
Definition snapshot_scene : M unit :=
  new_memory BaseMemoryC "serial_test" ;;;
  x <- new_MemoryItem "u1" "test" ;;
  BaseMemory_add "serial_test" x ;;;
  ret tt.

(** [data = c.save(); MemorySystem.reset(); cls.load(data)]. *)
Definition save_reset_load (self : string) (cls : MemClass) : M string :=
  data <- save self ;;
  MemorySystem_reset ;;;
  load cls data.

(** An item with the [BURN_AFTER_READ] protocol (object 0), owned by
    [mem1] and read once. *)
Definition burn_scene : M unit :=
  new_memory BaseMemoryC "mem1" ;;;
  new_memory BaseMemoryC "mem2" ;;;
  t <- datetime_now ;;
  i <- new_item false
         (mkItem "secret" (CStr "once") "test" t OVERWRITE BURN_AFTER_READ None
            [] [] NORMAL None None 0 None None None None [] false 0 None []) ;;
  BaseMemory_add "mem1" i ;;;
  BaseMemory_read 10 "mem1" "secret" None false true None ;;;
  ret tt.

(** The worlds the scenes leave behind, started at time 0 with nothing
    registered. *)
Definition link_world : World := exec link_scene (empty_world 0).
Definition chain_world : World := exec chain_scene (empty_world 0).
Definition tree_world : World := exec tree_scene (empty_world 0).
Definition deep_tree_world : World := exec deep_tree_scene (empty_world 0).
Definition containers_world : World := exec containers_scene (empty_world 0).
Definition snapshot_world : World := exec snapshot_scene (empty_world 0).
Definition burn_world : World := exec burn_scene (empty_world 0).

(** The container of [snapshot_scene]. *)
Definition snapshot_memory : Memory :=
  mkMemory BaseMemoryC "serial_test" [("u1", 0%nat)] [] [] [] [].

(** The ordered container of [containers_scene] and the linking
    container of [link_scene]. *)
Definition list_memory : Memory :=
  mkMemory ListMemoryC "list" [("k1", 0%nat); ("k2", 1%nat)] [] []
    [Some "k1"; Some "k2"] [].

Definition linking_memory : Memory :=
  mkMemory BaseMemoryC "mem2" [] [("k", ("mem1", "i1"))] [] [] [].

(** A container with one item whose content is an instance of a pydantic
    model, [Note(text="hi", tags=["a"])]. *)
Definition note : Content :=
  CModel "Note" [("text", CStr "hi"); ("tags", CList [CStr "a"])].

Definition note_scene : M unit :=
  new_memory BaseMemoryC "notes" ;;;
  t <- datetime_now ;;
  x <- new_item false (default_fields "n1" note "test" t) ;;
  BaseMemory_add "notes" x ;;;
  ret tt.

Definition note_world : World := exec note_scene (empty_world 0).

Definition note_memory : Memory :=
  mkMemory BaseMemoryC "notes" [("n1", 0%nat)] [] [] [] [].

(** The container of [tree_scene]. *)
Definition tree_memory : Memory :=
  mkMemory TreeMemoryC "tree"
    [("R", 0%nat); ("A", 1%nat); ("B", 2%nat); ("C", 3%nat)] [] [] [] ["R"].

(** * Properties *)

(** Splits a conjunction into its conjuncts, and nothing else. *)
Ltac split_all :=
  repeat match goal with |- _ /\ _ => split end.

(** ** Reasoning about method calls *)

Lemma bind_Ret_inv {A B} (m : M A) (f : A -> M B) w b w' :
  bind m f w = (Ret b, w') ->
  exists a w1, m w = (Ret a, w1) /\ f a w1 = (Ret b, w').
Proof.
  unfold bind. destruct (m w) as [[a| | |] w1]; intros H; try discriminate.
  exists a, w1. split; [reflexivity | exact H].
Qed.

Lemma ret_inv {A} (a b : A) w w' : ret a w = (Ret b, w') -> b = a /\ w' = w.
Proof. intros [= <- <-]. auto. Qed.

Lemma bind_run {A B} (m : M A) (f : A -> M B) w a w1 :
  m w = (Ret a, w1) -> bind m f w = f a w1.
Proof. intros H. unfold bind. rewrite H. reflexivity. Qed.

Lemma bind_fst_ext {A B} (m : M A) (f g : A -> M B) w :
  (forall a w', fst (f a w') = fst (g a w')) ->
  fst (bind m f w) = fst (bind m g w).
Proof.
  intros H. unfold bind. destruct (m w) as [[a| | |] w1]; auto.
Qed.

(** What a successful run of a primitive tells. *)
Lemma get_item_inv l w it w' :
  get_item l w = (Ret it, w') -> w' = w /\ heap w !! l = Some it.
Proof.
  unfold get_item. destruct (heap w !! l); intros H; inversion H; auto.
Qed.

Lemma get_self_inv s w m w' :
  get_self s w = (Ret m, w') -> w' = w /\ dict_get s (_memories w) = Some m.
Proof.
  unfold get_self. destruct (dict_get s (_memories w)); intros H;
    inversion H; auto.
Qed.

Lemma upd_item_inv l f w u w' :
  upd_item l f w = (Ret u, w') ->
  exists it, heap w !! l = Some it /\
             w' = mkWorld (now w) (<[l := f it]> (heap w)) (_memories w).
Proof.
  unfold upd_item. destruct (heap w !! l) as [it|]; intros H; inversion H.
  exists it. auto.
Qed.

Lemma upd_mem_inv s f w u w' :
  upd_mem s f w = (Ret u, w') ->
  exists m, dict_get s (_memories w) = Some m /\
            w' = mkWorld (now w) (heap w) (dict_set s (f m) (_memories w)).
Proof.
  unfold upd_mem. destruct (dict_get s (_memories w)) as [m|]; intros H;
    inversion H. exists m. auto.
Qed.

Lemma get_self_run s w m :
  dict_get s (_memories w) = Some m -> get_self s w = (Ret m, w).
Proof. intros H. unfold get_self. rewrite H. reflexivity. Qed.

Lemma get_item_run l w it : heap w !! l = Some it -> get_item l w = (Ret it, w).
Proof. intros H. unfold get_item. rewrite H. reflexivity. Qed.

Lemma upd_mem_run s f w m :
  dict_get s (_memories w) = Some m ->
  upd_mem s f w
  = (Ret tt, mkWorld (now w) (heap w) (dict_set s (f m) (_memories w))).
Proof. intros H. unfold upd_mem. rewrite H. reflexivity. Qed.

Lemma upd_item_run l f w it :
  heap w !! l = Some it ->
  upd_item l f w
  = (Ret tt, mkWorld (now w) (<[l := f it]> (heap w)) (_memories w)).
Proof. intros H. unfold upd_item. rewrite H. reflexivity. Qed.

Lemma returns_ret {A} (P : A -> Prop) a : P a -> returns P (ret a).
Proof. intros HP w a' w' H. inversion H. subst. exact HP. Qed.

Lemma returns_raise {A} (P : A -> Prop) e : returns P (raise e).
Proof. intros w a w' H. discriminate. Qed.

Lemma returns_bind {A B} (P : B -> Prop) (m : M A) (f : A -> M B) :
  (forall a, returns P (f a)) -> returns P (bind m f).
Proof.
  intros Hf w b w' H. apply bind_Ret_inv in H as (a & w1 & _ & H2).
  exact (Hf a w1 b w' H2).
Qed.

Ltac returns_tac :=
  repeat first
    [ apply returns_ret; reflexivity
    | apply returns_raise
    | apply returns_bind; intros
    | match goal with
      | |- returns _ (if ?b then _ else _) => destruct b
      | |- returns _ (match ?x with _ => _ end) => destruct x
      end ].

(** A relation between the world before and the world after that every
    step of a computation respects, whatever its outcome. *)
Section Preserves.
Context (R : World -> World -> Prop) `{!PreOrder R}.

Lemma preserves_ret {A} (a : A) : preserves R (ret a).
Proof. intros w. simpl. reflexivity. Qed.

Lemma preserves_raise {A} e : preserves R (@raise A e).
Proof. intros w. simpl. reflexivity. Qed.

Lemma preserves_out_of_fuel {A} : preserves R (@out_of_fuel A).
Proof. intros w. simpl. reflexivity. Qed.

Lemma preserves_dangling {A} : preserves R (@dangling A).
Proof. intros w. simpl. reflexivity. Qed.

Lemma preserves_get_world : preserves R get_world.
Proof. intros w. simpl. reflexivity. Qed.

Lemma preserves_datetime_now : preserves R datetime_now.
Proof. intros w. simpl. reflexivity. Qed.

Lemma preserves_datetime_add t delta : preserves R (datetime_add t delta).
Proof.
  intros w. unfold datetime_add. destruct (_ <? _); simpl; reflexivity.
Qed.

Lemma preserves_get_item l : preserves R (get_item l).
Proof. intros w. unfold get_item. destruct (heap w !! l); simpl; reflexivity. Qed.

Lemma preserves_get_self s : preserves R (get_self s).
Proof.
  intros w. unfold get_self. destruct (dict_get s (_memories w)); simpl; reflexivity.
Qed.

Lemma preserves_bind {A B} (m : M A) (f : A -> M B) :
  preserves R m -> (forall a, preserves R (f a)) -> preserves R (bind m f).
Proof.
  intros Hm Hf w. unfold bind. specialize (Hm w).
  destruct (m w) as [[a| | |] w1]; simpl in *; try exact Hm.
  etransitivity; [exact Hm | apply Hf].
Qed.

Lemma preserves_for_each {A} (xs : list A) (body : A -> M unit) :
  (forall x, preserves R (body x)) -> preserves R (for_each xs body).
Proof.
  intros Hb. induction xs as [|x xs IH]; simpl.
  - apply preserves_ret.
  - apply preserves_bind; [apply Hb | intros _; exact IH].
Qed.

Lemma preserves_py_assert b : preserves R (py_assert b).
Proof. destruct b; [apply preserves_ret | apply preserves_raise]. Qed.

Lemma preserves_py_getitem {V} k (d : option (Dict V)) :
  preserves R (py_getitem k d).
Proof.
  unfold py_getitem. destruct d as [d|]; [destruct (dict_get k d)|];
    first [apply preserves_ret | apply preserves_raise].
Qed.
End Preserves.

Create HintDb preserves discriminated.
#[export] Hint Resolve preserves_ret preserves_raise preserves_out_of_fuel
  preserves_dangling preserves_get_world preserves_datetime_now
  preserves_datetime_add
  preserves_get_item preserves_get_self preserves_py_assert
  preserves_py_getitem : preserves.

(** Splits a goal [preserves R m] along the structure of [m]. *)
Ltac preserves_tac :=
  repeat first
    [ solve [eauto with preserves typeclass_instances]
    | apply preserves_bind; [try exact _ | | intros]
    | apply preserves_for_each; [try exact _ | intros]
    | match goal with
      | |- preserves _ (if ?b then _ else _) => destruct b
      | |- preserves _ (match ?x with _ => _ end) => destruct x
      | |- preserves _ (let (_, _) := ?x in _) => destruct x
      end ].

(** ** Dictionaries *)

Lemma dict_get_set_eq {V} k (v : V) d : dict_get k (dict_set k v d) = Some v.
Proof.
  induction d as [|[k' v'] d IH]; simpl.
  - rewrite String.eqb_refl. reflexivity.
  - destruct (String.eqb k k') eqn:E; simpl; rewrite ?String.eqb_refl, ?E; auto.
Qed.

Lemma dict_get_set_ne {V} k k' (v : V) d :
  k <> k' -> dict_get k' (dict_set k v d) = dict_get k' d.
Proof.
  intros Hne. induction d as [|[k0 v0] d IH]; simpl.
  - destruct (String.eqb_spec k' k); [congruence | reflexivity].
  - destruct (String.eqb_spec k k0) as [->|H0]; simpl.
    + destruct (String.eqb_spec k' k0); [congruence | reflexivity].
    + destruct (String.eqb_spec k' k0); [reflexivity | exact IH].
Qed.

Lemma dict_get_None_keys {V} k (d : Dict V) :
  dict_get k d = None <-> ~ In k (dict_keys d).
Proof.
  induction d as [|[k' v'] d IH]; simpl.
  - tauto.
  - destruct (String.eqb_spec k k') as [->|Hne].
    + split; [discriminate | intros H; exfalso; apply H; auto].
    + rewrite IH. split; [intros H [E|E]; [congruence | tauto] | tauto].
Qed.

Lemma dict_get_In {V} k (v : V) d : dict_get k d = Some v -> In (k, v) d.
Proof.
  induction d as [|[k' v'] d IH]; simpl; [discriminate|].
  destruct (String.eqb_spec k k') as [->|Hne].
  - intros [= ->]. auto.
  - intros H. right. exact (IH H).
Qed.

Lemma dict_get_of_In {V} k (v : V) d :
  List.NoDup (dict_keys d) -> In (k, v) d -> dict_get k d = Some v.
Proof.
  induction d as [|[k' v'] d IH]; simpl; intros Hnd Hin; [contradiction|].
  apply List.NoDup_cons_iff in Hnd as [Hk Hnd].
  destruct Hin as [[= -> ->]|Hin].
  - rewrite String.eqb_refl. reflexivity.
  - destruct (String.eqb_spec k k') as [->|Hne].
    + exfalso. apply Hk. change (In (fst (k', v)) (map fst d)).
      apply in_map. exact Hin.
    + exact (IH Hnd Hin).
Qed.

Lemma dict_keys_set_new {V} k (v : V) d :
  dict_get k d = None -> dict_keys (dict_set k v d) = (dict_keys d ++ [k])%list.
Proof.
  induction d as [|[k' v'] d IH]; simpl; [reflexivity|].
  destruct (String.eqb_spec k k'); [discriminate|].
  intros H. simpl. rewrite (IH H). reflexivity.
Qed.

Lemma dict_get_del_ne {V} k k' (d : Dict V) :
  k <> k' -> dict_get k' (dict_del k d) = dict_get k' d.
Proof.
  intros Hne. induction d as [|[k0 v0] d IH]; simpl; [reflexivity|].
  destruct (String.eqb_spec k k0) as [->|H0]; simpl.
  - destruct (String.eqb_spec k' k0); [congruence | reflexivity].
  - destruct (String.eqb_spec k' k0); [reflexivity | exact IH].
Qed.

Lemma dict_get_del_eq {V} k (d : Dict V) :
  List.NoDup (dict_keys d) -> dict_get k (dict_del k d) = None.
Proof.
  induction d as [|[k0 v0] d IH]; simpl; intros Hnd; [reflexivity|].
  apply List.NoDup_cons_iff in Hnd as [Hk Hnd].
  destruct (String.eqb_spec k k0) as [->|H0]; simpl.
  - apply dict_get_None_keys. exact Hk.
  - destruct (String.eqb_spec k k0); [contradiction | exact (IH Hnd)].
Qed.

Lemma dict_keys_del_incl {V} k (d : Dict V) x :
  In x (dict_keys (dict_del k d)) -> In x (dict_keys d).
Proof.
  induction d as [|[k0 v0] d IH]; simpl; [tauto|].
  destruct (String.eqb k k0); simpl; tauto.
Qed.

Lemma dict_del_NoDup {V} k (d : Dict V) :
  List.NoDup (dict_keys d) -> List.NoDup (dict_keys (dict_del k d)).
Proof.
  induction d as [|[k0 v0] d IH]; simpl; intros Hnd; [constructor|].
  apply List.NoDup_cons_iff in Hnd as [Hk Hnd].
  destruct (String.eqb k k0); simpl; [exact Hnd|].
  constructor; [|exact (IH Hnd)].
  intros Hin. apply Hk. exact (dict_keys_del_incl _ _ _ Hin).
Qed.

Lemma dict_get_del_Some {V} k k' (v : V) d :
  List.NoDup (dict_keys d) ->
  dict_get k' (dict_del k d) = Some v -> dict_get k' d = Some v.
Proof.
  intros Hnd H. destruct (String.eqb_spec k k') as [->|Hne].
  - rewrite dict_get_del_eq in H by exact Hnd. discriminate.
  - rewrite dict_get_del_ne in H by exact Hne. exact H.
Qed.

Lemma keys_distinct_NoDup ks : keys_distinct ks = true -> List.NoDup ks.
Proof.
  induction ks as [|k ks IH]; simpl; intros H; constructor.
  - apply andb_prop in H as [H _]. intros Hin.
    assert (str_in k ks = true) as E.
    { unfold str_in. apply existsb_exists. exists k.
      split; [exact Hin | apply String.eqb_refl]. }
    rewrite E in H. discriminate.
  - apply andb_prop in H as [_ H]. exact (IH H).
Qed.

(** ** The duration parser on the strings of the tests *)

Example parse_duration_1d20h30m15s :
  parse_duration "1d20h30m15s" = DurDelta 160215.
Proof. reflexivity. Qed.

Example parse_duration_2h : parse_duration "2h" = DurDelta 7200.
Proof. reflexivity. Qed.

Example parse_duration_invalid : parse_duration "invalid" = DurInvalid.
Proof. reflexivity. Qed.

Example parse_duration_unordered : parse_duration "5s1d" = DurInvalid.
Proof. reflexivity. Qed.

(** ** The scenarios *)

(** The scenes run to completion. *)
Example scenes_complete :
  result link_scene (empty_world 0) = Ret tt /\
  result chain_scene (empty_world 0) = Ret tt /\
  result tree_scene (empty_world 0) = Ret tt /\
  result deep_tree_scene (empty_world 0) = Ret tt /\
  result containers_scene (empty_world 0) = Ret tt /\
  result snapshot_scene (empty_world 0) = Ret tt /\
  result burn_scene (empty_world 0) = Ret tt.
Proof. vm_compute. repeat split. Qed.

(** ** Reading through links *)

(** C1.  In [chain_scene] the key [k3] of [mem3] heads a chain of two
    links ending at item [i1] owned by [mem1].  Reading the owner's key and
    reading through the one link of [mem2] both give the content; reading
    the head of the two-link chain raises [TypeError] instead, whatever the
    fuel: the second hop passes [accessed_via] twice. *)
Theorem C1_read_through_two_links_raises :
  result (find_owner 10 "mem2" "i1") chain_world = Ret ("mem1", "i1") /\
  (forall n,
     result (BaseMemory_read (S n) "mem1" "i1" None false true None)
       chain_world
     = Ret (PContent (CStr "shared"))) /\
  (forall n,
     result (BaseMemory_read (S (S n)) "mem2" "i1" None false true None)
       chain_world
     = Ret (PContent (CStr "shared"))) /\
  (forall n,
     result (BaseMemory_read (S (S n)) "mem3" "k3" None false true None)
       chain_world
     = Raise TypeError).
Proof.
  split_all; try intros n; vm_compute; reflexivity.
Qed.

(** Revoking either link of that chain makes the read of the head key
    return [None] and leaves the owner's item and the other link alone. *)
Example chain_revoke_gives_miss :
  let w2 := exec (revoke_link "mem2" "i1") chain_world in
  let w3 := exec (revoke_link "mem3" "k3") chain_world in
  result (BaseMemory_read 10 "mem3" "k3" None false true None) w2 = Ret PNone /\
  result (BaseMemory_read 10 "mem3" "k3" None false true None) w3 = Ret PNone /\
  item_in w2 "mem1" "i1" = item_in chain_world "mem1" "i1" /\
  item_in w3 "mem1" "i1" = item_in chain_world "mem1" "i1" /\
  links_of w2 "mem3" = links_of chain_world "mem3" /\
  links_of w3 "mem2" = links_of chain_world "mem2".
Proof. vm_compute. repeat split. Qed.

Lemma resolve_link_run_Some self m k tm ti mt w :
  dict_get self (_memories w) = Some m ->
  dict_get k (_links m) = Some (tm, ti) ->
  dict_get tm (_memories w) = Some mt ->
  BaseMemory_resolve_link self k w = (Ret (Some (tm, ti, (m_uid m, k))), w).
Proof.
  intros Hm Hk Ht. unfold BaseMemory_resolve_link.
  rewrite (bind_run _ _ _ _ _ (get_self_run _ _ _ Hm)). cbv beta. rewrite Hk.
  unfold MemorySystem_get_memory, bind, get_world, ret. rewrite Ht. reflexivity.
Qed.

Lemma resolve_link_run_None self m k w :
  dict_get self (_memories w) = Some m ->
  dict_get k (_links m) = None ->
  BaseMemory_resolve_link self k w = (Ret None, w).
Proof.
  intros Hm Hk. unfold BaseMemory_resolve_link.
  rewrite (bind_run _ _ _ _ _ (get_self_run _ _ _ Hm)). cbv beta. rewrite Hk.
  reflexivity.
Qed.

Lemma content_set_history h it : content (set_history h it) = content it.
Proof. destruct it; reflexivity. Qed.

(** The annotation [accessed_via] only reaches the history log: it does
    not change what the item's [read] returns. *)
Lemma MemoryItem_read_result_any_via l rm reader via w :
  fst (MemoryItem_read l rm reader via w)
  = fst (MemoryItem_read l rm reader None w).
Proof.
  unfold MemoryItem_read.
  apply bind_fst_ext. intros it w1.
  destruct (negb (state_eqb (state it) NORMAL)); [reflexivity|].
  apply bind_fst_ext. intros expired w2.
  destruct expired; [reflexivity|].
  do 5 (apply bind_fst_ext; intros ? ?).
  match goal with |- fst (_ ?w') = _ => generalize w' end.
  clear. intros w.
  unfold MemoryItem_update_history, bind, datetime_now, upd_item, get_item, ret.
  destruct (heap w !! l) as [it|] eqn:E; [|reflexivity].
  destruct rm; [reflexivity|]. cbn [heap].
  rewrite !list_lookup_insert_eq by (eapply lookup_lt_Some; exact E).
  cbn [fst]. rewrite !content_set_history. reflexivity.
Qed.

(** Reading a key that holds a link whose target key is not itself a link
    returns what reading the target container's key returns (with the
    default flags, which are what the forwarded call uses). *)
Lemma read_through_one_link w self m k tm ti mt fuel reader rm rnie :
  mem_of w self = Some m ->
  dict_get k (_links m) = Some (tm, ti) ->
  mem_of w tm = Some mt ->
  dict_get ti (_links mt) = None ->
  result (BaseMemory_read (S (S fuel)) self k reader rm rnie None) w
  = result (BaseMemory_read (S fuel) tm ti reader false true None) w.
Proof.
  unfold mem_of, result. intros Hm Hk Ht Hti.
  cbn [BaseMemory_read].
  rewrite (bind_run _ _ _ _ _ (resolve_link_run_Some _ _ _ _ _ _ _ Hm Hk Ht)).
  cbv beta iota.
  rewrite !(bind_run _ _ _ _ _ (resolve_link_run_None _ _ _ _ Ht Hti)).
  cbv beta iota.
  apply bind_fst_ext. intros mt' w1.
  destruct (dict_get ti (items mt')) as [item|]; [|reflexivity].
  apply bind_fst_ext. intros accessible w2.
  destruct (negb accessible); [reflexivity|].
  apply MemoryItem_read_result_any_via.
Qed.

(** [read] needs fuel for two calls only. *)
Lemma has_fuel_ret {A} (a : A) : has_fuel (ret a).
Proof. intros w. discriminate. Qed.

Lemma has_fuel_raise {A} e : has_fuel (@raise A e).
Proof. intros w. discriminate. Qed.

Lemma has_fuel_bind {A B} (m : M A) (f : A -> M B) :
  has_fuel m -> (forall a, has_fuel (f a)) -> has_fuel (bind m f).
Proof.
  intros Hm Hf w. unfold bind. specialize (Hm w).
  destruct (m w) as [[a| | |] w1]; cbn [fst] in *.
  - apply Hf.
  - discriminate.
  - exfalso. apply Hm. reflexivity.
  - discriminate.
Qed.

Lemma has_fuel_get_item l : has_fuel (get_item l).
Proof. intros w. unfold get_item. destruct (heap w !! l); discriminate. Qed.

Lemma has_fuel_get_self s : has_fuel (get_self s).
Proof.
  intros w. unfold get_self. destruct (dict_get s (_memories w)); discriminate.
Qed.

Lemma has_fuel_upd_item l f : has_fuel (upd_item l f).
Proof. intros w. unfold upd_item. destruct (heap w !! l); discriminate. Qed.

Lemma has_fuel_datetime_now : has_fuel datetime_now.
Proof. intros w. discriminate. Qed.

Lemma has_fuel_get_world : has_fuel get_world.
Proof. intros w. discriminate. Qed.

Lemma has_fuel_datetime_add t delta : has_fuel (datetime_add t delta).
Proof. intros w. unfold datetime_add. destruct (_ <? _); discriminate. Qed.

Create HintDb has_fuel discriminated.
#[export] Hint Resolve has_fuel_ret has_fuel_raise has_fuel_get_item
  has_fuel_get_self has_fuel_upd_item has_fuel_datetime_now
  has_fuel_get_world has_fuel_datetime_add : has_fuel.

Ltac has_fuel_tac :=
  repeat first
    [ solve [eauto with has_fuel]
    | apply has_fuel_bind; [ | intros]
    | match goal with
      | |- has_fuel (if ?b then _ else _) => destruct b
      | |- has_fuel (match ?x with _ => _ end) => destruct x
      end ].

Lemma has_fuel_item_read l rm r v : has_fuel (MemoryItem_read l rm r v).
Proof.
  unfold MemoryItem_read, MemoryItem_is_expired, MemoryItem_get_expiration_time,
    MemoryItem_update_history.
  has_fuel_tac.
Qed.

Lemma has_fuel_is_accessible l : has_fuel (MemoryItem_is_accessible l).
Proof.
  unfold MemoryItem_is_accessible, MemoryItem_is_expired,
    MemoryItem_get_expiration_time.
  has_fuel_tac.
Qed.

Lemma has_fuel_resolve_link s i : has_fuel (BaseMemory_resolve_link s i).
Proof.
  unfold BaseMemory_resolve_link, MemorySystem_get_memory. has_fuel_tac.
Qed.
#[export] Hint Resolve has_fuel_item_read has_fuel_is_accessible
  has_fuel_resolve_link : has_fuel.

(** A call through a link carries [accessed_via]; such a call never makes
    a further call, so [read] is at most two calls deep. *)
Lemma has_fuel_read_via n s i r rm rn via :
  has_fuel (BaseMemory_read (S n) s i r rm rn (Some via)).
Proof. cbn [BaseMemory_read]. has_fuel_tac. Qed.

Lemma BaseMemory_read_has_fuel n s i r rm rn kw :
  has_fuel (BaseMemory_read (S (S n)) s i r rm rn kw).
Proof.
  pose proof has_fuel_read_via.
  cbn [BaseMemory_read]. has_fuel_tac.
Qed.

(** ** The cascade of [delete] *)

(** C2.  In [chain_scene] the forward entry [k3] of [mem3] resolves to
    [(mem1, i1)] and is recorded in [mem1]'s reverse index.  Deleting [i1]
    from [mem1] succeeds and strips [mem2]'s entry, but [mem3] still holds
    its forward entry afterwards: the entry stores [mem2] as container, and
    the cascade compares with [(mem1, i1)]. *)
Theorem C2_delete_keeps_chained_forward_entry :
  let w' := exec (delete 10 "mem1" "i1" false true) chain_world in
  links_of chain_world "mem3" = [("k3", ("mem2", "i1"))] /\
  result (find_owner 10 "mem2" "i1") chain_world = Ret ("mem1", "i1") /\
  reverse_links_of chain_world "mem1" = [("mem2", [("i1", "i1")]); ("mem3", [("k3", "i1")])] /\
  result (delete 10 "mem1" "i1" false true) chain_world = Ret true /\
  item_in w' "mem1" "i1" = None /\
  links_of w' "mem2" = [] /\
  links_of w' "mem3" = [("k3", ("mem2", "i1"))].
Proof. vm_compute. repeat split. Qed.

(** Links requested at the owner itself are stripped. *)
Lemma keys_pointing_at_In target k (links : Dict (string * string)) :
  dict_get k links = Some target -> In k (keys_pointing_at target links).
Proof.
  intros H. apply dict_get_In in H. unfold keys_pointing_at.
  change k with (fst (k, target)). apply in_map. apply filter_In.
  split; [exact H|]. destruct target; simpl. rewrite !String.eqb_refl.
  reflexivity.
Qed.

#[export] Instance links_shrink_preorder : PreOrder links_shrink.
Proof.
  split.
  - intros w Hw. auto.
  - intros a b c H1 H2 Ha. destruct (H1 Ha) as [Hb S1].
    destruct (H2 Hb) as [Hc S2]. auto.
Qed.

(** Steps that leave the directory of containers alone. *)
Lemma shrink_same_memories w w' :
  _memories w' = _memories w -> links_shrink w w'.
Proof.
  intros E Hw. unfold links_wf, links_of, mem_of in *. rewrite E. auto.
Qed.

Lemma shrink_upd_item l f : preserves links_shrink (upd_item l f).
Proof.
  intros w. apply shrink_same_memories. unfold upd_item.
  destruct (heap w !! l); reflexivity.
Qed.

Lemma shrink_get_memory u : preserves links_shrink (MemorySystem_get_memory u).
Proof.
  intros w. apply shrink_same_memories.
  unfold MemorySystem_get_memory, bind, get_world.
  destruct (dict_get u (_memories w)); reflexivity.
Qed.

(** An update of one container that keeps or shrinks its link table. *)
Lemma shrink_upd_mem s f :
  (forall m, List.NoDup (dict_keys (_links m)) ->
     List.NoDup (dict_keys (_links (f m))) /\
     forall k v, dict_get k (_links (f m)) = Some v ->
                 dict_get k (_links m) = Some v) ->
  preserves links_shrink (upd_mem s f).
Proof.
  intros Hf w. unfold upd_mem.
  destruct (dict_get s (_memories w)) as [m|] eqn:Hm; cbn [snd];
    [|reflexivity].
  intros Hw. destruct (Hf m (Hw s m Hm)) as [Hnd Hsub].
  assert (Hl : forall c,
            mem_of (mkWorld (now w) (heap w) (dict_set s (f m) (_memories w))) c
            = if String.eqb s c then Some (f m) else mem_of w c).
  { intros c. unfold mem_of. cbn [_memories].
    destruct (String.eqb_spec s c) as [->|Hne].
    - apply dict_get_set_eq.
    - apply dict_get_set_ne. exact Hne. }
  split.
  - intros c mc. rewrite Hl. destruct (String.eqb_spec s c) as [->|Hne].
    + intros [= <-]. exact Hnd.
    + apply Hw.
  - intros c k v. unfold links_of. rewrite Hl.
    destruct (String.eqb_spec s c) as [->|Hne]; [|auto].
    unfold mem_of. rewrite Hm. apply Hsub.
Qed.

#[export] Hint Resolve shrink_upd_item shrink_get_memory : preserves.

Lemma shrink_update_history l a v k :
  preserves links_shrink (MemoryItem_update_history l a v k).
Proof. unfold MemoryItem_update_history. preserves_tac. Qed.
#[export] Hint Resolve shrink_update_history : preserves.

Lemma shrink_del_link s k :
  preserves links_shrink
    (upd_mem s (fun mm => set_links (dict_del k (_links mm)) mm)).
Proof.
  apply shrink_upd_mem. intros m Hnd.
  assert (E : _links (set_links (dict_del k (_links m)) m)
              = dict_del k (_links m)) by (destruct m; reflexivity).
  rewrite E. split; [apply dict_del_NoDup; exact Hnd|].
  intros k' v. apply dict_get_del_Some. exact Hnd.
Qed.

Lemma shrink_del_item s k :
  preserves links_shrink
    (upd_mem s (fun m => set_items (dict_del k (items m)) m)).
Proof.
  apply shrink_upd_mem. intros m Hnd.
  assert (E : _links (set_items (dict_del k (items m)) m) = _links m)
    by (destruct m; reflexivity).
  rewrite E. auto.
Qed.
#[export] Hint Resolve shrink_del_link shrink_del_item : preserves.

(** Removing the keys that point at [target] from the link table of
    container [r] leaves no entry pointing at [target] there. *)
Lemma strip_links_no_entry r target :
  forall ks w w',
    links_wf w ->
    (forall k, dict_get k (links_of w r) = Some target -> In k ks) ->
    for_each ks (fun k =>
      upd_mem r (fun mm => set_links (dict_del k (_links mm)) mm)) w
    = (Ret tt, w') ->
    no_entry w' r target.
Proof.
  induction ks as [|k ks IH]; intros w w' Hw Hks H; simpl in H.
  - apply ret_inv in H as [_ ->]. intros k Hk. exact (Hks k Hk).
  - apply bind_Ret_inv in H as (? & w1 & H1 & H).
    pose proof (shrink_del_link r k w Hw) as [Hw1 Hsub].
    rewrite H1 in Hw1, Hsub. cbn [snd] in Hw1, Hsub.
    apply (IH w1 w' Hw1); [|exact H].
    intros k' Hk'. pose proof (Hsub _ _ _ Hk') as Hold.
    destruct (Hks k' Hold) as [->|Hin]; [|exact Hin].
    exfalso. apply upd_mem_inv in H1 as (mr & Hmr & ->).
    revert Hk'. unfold links_of, mem_of. cbn [_memories].
    rewrite dict_get_set_eq.
    assert (E : _links (set_links (dict_del k' (_links mr)) mr)
                = dict_del k' (_links mr)) by (destruct mr; reflexivity).
    rewrite E, dict_get_del_eq by (exact (Hw r mr Hmr)). discriminate.
Qed.

Lemma no_entry_shrink w w' c target :
  links_wf w -> links_shrink w w' -> no_entry w c target -> no_entry w' c target.
Proof.
  intros Hw Hs Hn k Hk. destruct (Hs Hw) as [_ Hsub].
  exact (Hn k (Hsub _ _ _ Hk)).
Qed.

Lemma shrink_strip_round target r : preserves links_shrink (strip_round target r).
Proof. unfold strip_round. preserves_tac. Qed.

Lemma strip_round_no_entry target r w w' :
  links_wf w ->
  strip_round target r w = (Ret tt, w') ->
  no_entry w' r target.
Proof.
  intros Hw H. unfold strip_round in H.
  apply bind_Ret_inv in H as (memory & w1 & H1 & H).
  unfold MemorySystem_get_memory, bind, get_world in H1.
  destruct (dict_get r (_memories w)) as [mr|] eqn:Hr; [|discriminate].
  apply ret_inv in H1 as [-> ->].
  assert (Hl : links_of w r = _links mr)
    by (unfold links_of, mem_of; rewrite Hr; reflexivity).
  destruct (memory_truthy mr) eqn:Et.
  - eapply strip_links_no_entry; [exact Hw | | exact H].
    intros k Hk. rewrite Hl in Hk. apply keys_pointing_at_In. exact Hk.
  - apply ret_inv in H as [_ ->]. intros k. rewrite Hl.
    unfold memory_truthy, BaseMemory_len in Et.
    destruct (_links mr); [discriminate|].
    rewrite length_cons, Nat.add_succ_r in Et. discriminate.
Qed.

Lemma strip_rounds_no_entry target :
  forall rs w w',
    links_wf w ->
    for_each rs (strip_round target) w = (Ret tt, w') ->
    forall r, In r rs -> no_entry w' r target.
Proof.
  induction rs as [|r0 rs IH]; intros w w' Hw H r Hin; [destruct Hin|].
  simpl in H. apply bind_Ret_inv in H as ([] & w1 & H1 & H).
  pose proof (shrink_strip_round target r0 w) as Hs1.
  rewrite H1 in Hs1. cbn [snd] in Hs1.
  destruct (Hs1 Hw) as [Hw1 _].
  destruct Hin as [<-|Hin].
  - eapply (no_entry_shrink w1 w'); [exact Hw1 | |].
    + pose proof (preserves_for_each links_shrink rs (strip_round target)
                    (shrink_strip_round target) w1) as Hs.
      rewrite H in Hs. exact Hs.
    + exact (strip_round_no_entry _ _ _ _ Hw H1).
  - exact (IH w1 w' Hw1 H r Hin).
Qed.

(** The cascade, for links that name the owner itself.  When a base or
    keyed container deletes one of its items, every container recorded in
    its reverse index ends up without any forward entry pointing at
    [(uid, identifier)]. *)
Lemma delete_strips_direct_links fuel w self m identifier rfie w' :
  mem_of w self = Some m ->
  m_class m = BaseMemoryC \/ m_class m = DictMemoryC ->
  dict_get identifier (_links m) = None ->
  links_wf w ->
  delete (S fuel) self identifier false rfie w = (Ret true, w') ->
  forall r, In r (dict_keys (_reverse_links m)) ->
    no_entry w' r (m_uid m, identifier).
Proof.
  unfold mem_of. intros Hm Hcls Hlink Hw H r Hr.
  assert (Hb : BaseMemory_delete (delete fuel) self identifier false rfie w
               = (Ret true, w')).
  { cbn [delete] in H.
    rewrite (bind_run _ _ _ _ _ (get_self_run _ _ _ Hm)) in H.
    cbv beta in H. destruct Hcls as [E|E]; rewrite E in H; exact H. }
  clear H. unfold BaseMemory_delete in Hb.
  rewrite (bind_run _ _ _ _ _ (get_self_run _ _ _ Hm)) in Hb. cbv beta in Hb.
  unfold dict_mem in Hb. rewrite Hlink in Hb.
  rewrite (bind_run _ _ _ _ _ (get_self_run _ _ _ Hm)) in Hb. cbv beta in Hb.
  destruct (dict_get identifier (items m)) as [item|];
    [|destruct rfie; discriminate].
  apply bind_Ret_inv in Hb as ([] & w1 & H1 & Hb).
  pose proof (strip_rounds_no_entry _ _ _ _ Hw H1 r Hr) as Hn.
  pose proof (preserves_for_each links_shrink (dict_keys (_reverse_links m)) _
                (shrink_strip_round (m_uid m, identifier)) w) as Hs1.
  rewrite H1 in Hs1. cbn [snd] in Hs1. destruct (Hs1 Hw) as [Hw1 _].
  eapply (no_entry_shrink w1 w'); [exact Hw1 | | exact Hn].
  match type of Hb with
  | ?rest w1 = _ =>
      assert (Hp : preserves links_shrink rest) by preserves_tac;
      pose proof (Hp w1) as Hs
  end.
  rewrite Hb in Hs. exact Hs.
Qed.

(** The cascade lemma at [link_scene]: deleting [i1] from [mem1] leaves
    [mem2] without an entry pointing at [(mem1, i1)]. *)
Example cascade_in_link_scene :
  no_entry (exec (delete 5 "mem1" "i1" false true) link_world) "mem2"
    ("mem1", "i1").
Proof.
  assert (Hm : mem_of link_world "mem1"
               = Some (mkMemory BaseMemoryC "mem1" [("i1", 0%nat)] []
                         [("mem2", [("k", "i1")])] [] []))
    by (vm_compute; reflexivity).
  assert (Hw : links_wf link_world).
  { intros c mc H. unfold mem_of in H.
    assert (E : _memories link_world
                = [("mem1", mkMemory BaseMemoryC "mem1" [("i1", 0%nat)] []
                              [("mem2", [("k", "i1")])] [] []);
                   ("mem2", mkMemory BaseMemoryC "mem2" []
                              [("k", ("mem1", "i1"))] [] [] [])])
      by (vm_compute; reflexivity).
    rewrite E in H. cbn [dict_get] in H.
    destruct (String.eqb c "mem1"); [injection H as <-; constructor|].
    destruct (String.eqb c "mem2"); [injection H as <-|discriminate].
    repeat constructor. intros []. }
  assert (Hd : delete 5 "mem1" "i1" false true link_world
               = (Ret true, exec (delete 5 "mem1" "i1" false true) link_world))
    by (vm_compute; reflexivity).
  exact (delete_strips_direct_links _ _ _ _ _ _ _ Hm (or_introl eq_refl)
           eq_refl Hw Hd "mem2" (or_introl eq_refl)).
Qed.

(** ** Forward entries and the reverse index *)

(** C3.  After [request_link] the forward entry of [mem2] and one reverse
    entry on the owner [mem1] are both present.  Deleting the item then
    strips the forward entry and keeps the reverse entry; requesting the
    same link a second time keeps one forward entry and records a second
    reverse entry. *)
Theorem C3_reverse_index_out_of_step :
  let w1 := exec (delete 10 "mem1" "i1" false true) link_world in
  let w2 := exec (BaseMemory_request_link 10 "mem2" "mem1" "i1" (Some "k")) link_world in
  (links_of link_world "mem2" = [("k", ("mem1", "i1"))] /\
   reverse_links_of link_world "mem1" = [("mem2", [("k", "i1")])]) /\
  (result (delete 10 "mem1" "i1" false true) link_world = Ret true /\
   links_of w1 "mem2" = [] /\
   reverse_links_of w1 "mem1" = [("mem2", [("k", "i1")])]) /\
  (links_of w2 "mem2" = [("k", ("mem1", "i1"))] /\
   reverse_links_of w2 "mem1" = [("mem2", [("k", "i1"); ("k", "i1")])]).
Proof. vm_compute. repeat split. Qed.

(** Resolving a target changes nothing. *)
Lemma unchanged_get_memory u : preserves eq (MemorySystem_get_memory u).
Proof.
  intros w. unfold MemorySystem_get_memory, bind, get_world.
  destruct (dict_get u (_memories w)); reflexivity.
Qed.
#[export] Hint Resolve unchanged_get_memory : preserves.

Lemma unchanged_resolve_link s i : preserves eq (BaseMemory_resolve_link s i).
Proof. unfold BaseMemory_resolve_link. preserves_tac. Qed.
#[export] Hint Resolve unchanged_resolve_link : preserves.

Lemma unchanged_find_owner fuel tm ti : preserves eq (find_owner fuel tm ti).
Proof.
  revert tm ti. induction fuel as [|fuel IH]; intros tm ti; simpl; preserves_tac.
Qed.

Lemma find_owner_registered fuel tm ti w owner item_uid w' :
  find_owner fuel tm ti w = (Ret (owner, item_uid), w') ->
  exists mo, dict_get owner (_memories w) = Some mo /\
             dict_mem item_uid (items mo) = true.
Proof.
  revert tm ti w'. induction fuel as [|fuel IH]; intros tm ti w' H; simpl in H;
    [discriminate|].
  apply bind_Ret_inv in H as (mt & w1 & H1 & H).
  apply get_self_inv in H1 as [-> Hmt].
  destruct (dict_mem ti (items mt)) eqn:Ei.
  - apply ret_inv in H as [[= -> ->] ->]. eauto.
  - destruct (dict_mem ti (_links mt)); [|discriminate].
    apply bind_Ret_inv in H as (r & w1 & H1 & H).
    pose proof (unchanged_resolve_link tm ti w) as Hw. rewrite H1 in Hw.
    simpl in Hw. subst w1.
    destruct r as [[[tm' ti'] via]|]; [|discriminate].
    exact (IH _ _ _ H).
Qed.

(** A successful [request_link] to another container leaves the forward
    entry [key -> (target_mem_uid, item_uid)] in the requester and the
    entry [(key, item_uid)] last in the resolved owner's reverse index
    under the requester's uid, where [(owner, item_uid)] is what the link
    tables resolve the target to; and it hands back [None]. *)
Lemma request_link_records_both fuel w self m tm ti src v w' :
  mem_of w self = Some m ->
  m_uid m = self ->
  tm <> self ->
  BaseMemory_request_link fuel self tm ti src w = (Ret v, w') ->
  let key := match src with Some s => s | None => ti end in
  exists owner item_uid entries,
    find_owner fuel tm ti w = (Ret (owner, item_uid), w) /\
    dict_get key (links_of w' self) = Some (tm, item_uid) /\
    dict_get self (reverse_links_of w' owner)
    = Some (entries ++ [(key, item_uid)]) /\
    v = None.
Proof.
  unfold mem_of. intros Hm Huid Hne H.
  set (key := match src with Some s => s | None => ti end) in *.
  unfold BaseMemory_request_link in H.
  apply bind_Ret_inv in H as (m0 & w1 & H1 & H).
  apply get_self_inv in H1 as [-> Hm0].
  assert (m0 = m) as -> by congruence. rewrite Huid in H.
  destruct (String.eqb_spec tm self) as [|_]; [contradiction|].
  fold key in H.
  destruct (dict_mem key (items m)); [discriminate|].
  apply bind_Ret_inv in H as (? & w1 & H1 & H).
  pose proof (unchanged_get_memory tm w) as Hw. rewrite H1 in Hw.
  simpl in Hw. subst w1. clear H1.
  apply bind_Ret_inv in H as ([owner item_uid] & w1 & H1 & H).
  pose proof (unchanged_find_owner fuel tm ti w) as Hw. rewrite H1 in Hw.
  simpl in Hw. subst w1.
  destruct (find_owner_registered _ _ _ _ _ _ _ H1) as (mo & Hmo & _).
  apply bind_Ret_inv in H as (? & w1 & H2 & H).
  apply upd_mem_inv in H2 as (m1 & Hm1 & ->).
  assert (m1 = m) as -> by congruence.
  apply bind_Ret_inv in H as (? & w2 & H3 & H).
  apply upd_mem_inv in H3 as (mo1 & Hmo1 & ->).
  apply bind_Ret_inv in H as (? & w3 & H4 & H).
  apply upd_mem_inv in H4 as (mo2 & Hmo2 & ->).
  apply ret_inv in H as [-> ->].
  cbn [_memories now heap] in *.
  rewrite dict_get_set_eq in Hmo2. injection Hmo2 as <-.
  exists owner, item_uid.
  set (mo' := if dict_mem self (_reverse_links mo1) then mo1
              else set_reverse_links (dict_set self [] (_reverse_links mo1)) mo1).
  exists (match dict_get self (_reverse_links mo') with
          | Some l => l
          | None => []
          end).
  split_all; [exact H1 | | | reflexivity].
  - unfold links_of, mem_of. cbn [_memories].
    destruct (String.eqb_spec owner self) as [->|Hos].
    + rewrite !dict_get_set_eq. fold mo'.
      rewrite dict_get_set_eq in Hmo1. injection Hmo1 as <-.
      unfold mo'. destruct m; cbn.
      destruct (dict_mem _ _); cbn; apply dict_get_set_eq.
    + rewrite !dict_get_set_ne by exact Hos.
      rewrite dict_get_set_eq. destruct m; cbn. apply dict_get_set_eq.
  - unfold reverse_links_of, mem_of. cbn [_memories].
    rewrite !dict_get_set_eq. fold mo'.
    destruct mo'; cbn. apply dict_get_set_eq.
Qed.

(** C10.  [request_link] never hands back the local key: whenever it
    returns, the value is [None].  In [containers_scene] the ordered
    container's [request_link] returns the position 2 and stores that
    [None] in its order list. *)
Theorem C10_request_link_returns_None :
  (forall fuel self target_mem_uid target_item_uid source_item_uid w,
     match result (BaseMemory_request_link fuel self target_mem_uid
                     target_item_uid source_item_uid) w with
     | Ret v => v = None
     | _ => True
     end) /\
  let call := ListMemory_request_link 10 "list" "base" "i1" (Some "k") None in
  result (BaseMemory_request_link 10 "dict" "base" "i1" (Some "k")) containers_world = Ret None /\
  links_of (exec (BaseMemory_request_link 10 "dict" "base" "i1" (Some "k")) containers_world) "dict"
    = [("k", ("base", "i1"))] /\
  result call containers_world = Ret 2 /\
  option_map item_list (mem_of (exec call containers_world) "list")
    = Some [Some "k1"; Some "k2"; None].
Proof.
  split; [ | vm_compute; repeat split ].
  intros fuel self tm ti src w. unfold result.
  destruct (BaseMemory_request_link fuel self tm ti src w) as [[v| | |] w'] eqn:E;
    simpl; trivial.
  revert E. generalize w v w'.
  change (returns (fun v => v = None)
            (BaseMemory_request_link fuel self tm ti src)).
  unfold BaseMemory_request_link. returns_tac.
Qed.

(** ** Deleting an unknown identifier *)

(** For a base, keyed or tree container, an identifier that names neither
    an item nor a link makes [delete] with the return-false flag answer
    [False] and change nothing. *)
Lemma delete_miss_returns_false w self m identifier fuel flag :
  mem_of w self = Some m ->
  m_class m <> ListMemoryC ->
  dict_get identifier (items m) = None ->
  dict_get identifier (_links m) = None ->
  delete (S fuel) self identifier flag true w = (Ret false, w).
Proof.
  unfold mem_of. intros Hm Hc Hi Hl.
  assert (Hmem : dict_mem identifier (_links m) = false)
    by (unfold dict_mem; rewrite Hl; reflexivity).
  assert (Hbase : BaseMemory_delete (delete fuel) self identifier flag true w
                  = (Ret false, w)).
  { unfold BaseMemory_delete, BaseMemory_resolve_link, bind, get_self, ret.
    destruct flag;
      repeat (progress (cbv beta iota; rewrite ?Hm, ?Hl, ?Hmem, ?Hi));
      reflexivity. }
  simpl. unfold bind at 1. unfold get_self at 1. rewrite Hm.
  destruct (m_class m); try exact Hbase; [congruence|].
  unfold TreeMemory_delete, bind, get_self, ret.
  repeat (progress (cbv beta iota; rewrite ?Hm, ?Hi)). reflexivity.
Qed.

(** C9.  In [containers_scene] no container knows the identifier [nope].
    The ordered container's [delete] raises [UnboundLocalError] for it even
    with the return-false flag (its branch for a key reads the local
    variable [index] before any assignment); in raising mode the base and
    keyed containers, and the ordered one by position, raise
    [NotImplementedError], which the constructor of the error raises for
    every container that is not a tree.  The base, keyed and tree
    containers do return [False] and change nothing with the flag, and the
    tree raises the item-not-found error in raising mode. *)
Theorem C9_delete_miss_ordered_container_raises :
  (forall n flag,
     result (delete (S n) "list" "nope" flag true) containers_world = Raise UnboundLocalError) /\
  (forall n flag,
     result (delete (S n) "base" "nope" flag false) containers_world = Raise NotImplementedError) /\
  (forall n flag,
     result (delete (S n) "dict" "nope" flag false) containers_world = Raise NotImplementedError) /\
  result (ListMemory_delete (delete 10) "list" (inl 7) false false) containers_world
    = Raise NotImplementedError /\
  (forall n flag, delete (S n) "base" "nope" flag true containers_world = (Ret false, containers_world)) /\
  (forall n flag, delete (S n) "dict" "nope" flag true containers_world = (Ret false, containers_world)) /\
  (forall n flag, delete (S n) "tree" "nope" flag true containers_world = (Ret false, containers_world)) /\
  ListMemory_delete (delete 10) "list" (inl 7) false true containers_world = (Ret false, containers_world) /\
  (forall n flag,
     result (delete (S n) "tree" "nope" flag false) containers_world = Raise iGymMemoryItemNotFound).
Proof.
  split_all; try (intros n flag; destruct flag); vm_compute; reflexivity.
Qed.

(** ** Expiration is final for [read], [modify] and [delete] *)

#[export] Instance expired_stable_preorder : PreOrder expired_stable.
Proof.
  split.
  - intros w l H. exact H.
  - intros a b c Hab Hbc l H. apply Hbc, Hab, H.
Qed.

Lemma expired_upd_item l (f : MemoryItem -> MemoryItem) :
  (forall it, state (f it) = state it \/ state (f it) = EXPIRED) ->
  preserves expired_stable (upd_item l f).
Proof.
  intros Hf w l' H. unfold upd_item, state_at in *.
  destruct (heap w !! l) as [it|] eqn:E; simpl; [|exact H].
  destruct (decide (l = l')) as [->|Hne].
  - rewrite E in H. simpl in H.
    rewrite list_lookup_insert_eq by (eapply lookup_lt_Some; exact E).
    simpl. destruct (Hf it) as [-> | ->]; [exact H | reflexivity].
  - rewrite list_lookup_insert_ne by exact Hne. exact H.
Qed.

Lemma expired_upd_mem s f : preserves expired_stable (upd_mem s f).
Proof.
  intros w l H. unfold upd_mem.
  destruct (dict_get s (_memories w)); simpl; exact H.
Qed.

Lemma expired_get_memory u : preserves expired_stable (MemorySystem_get_memory u).
Proof.
  intros w l H. unfold MemorySystem_get_memory, bind, get_world.
  destruct (dict_get u (_memories w)); simpl; exact H.
Qed.

#[export] Hint Resolve expired_upd_mem expired_get_memory : preserves.
#[export] Hint Extern 1 (preserves expired_stable (upd_item _ _)) =>
  apply expired_upd_item; intros []; simpl; auto : preserves.

Lemma expired_get_expiration_time l :
  preserves expired_stable (MemoryItem_get_expiration_time l).
Proof. unfold MemoryItem_get_expiration_time. preserves_tac. Qed.
#[export] Hint Resolve expired_get_expiration_time : preserves.

Lemma expired_is_expired l : preserves expired_stable (MemoryItem_is_expired l).
Proof. unfold MemoryItem_is_expired. preserves_tac. Qed.
#[export] Hint Resolve expired_is_expired : preserves.

Lemma expired_update_history l a v k :
  preserves expired_stable (MemoryItem_update_history l a v k).
Proof. unfold MemoryItem_update_history. preserves_tac. Qed.
#[export] Hint Resolve expired_update_history : preserves.

Lemma expired_is_accessible l :
  preserves expired_stable (MemoryItem_is_accessible l).
Proof. unfold MemoryItem_is_accessible. preserves_tac. Qed.
#[export] Hint Resolve expired_is_accessible : preserves.

Lemma expired_item_read l rm r v :
  preserves expired_stable (MemoryItem_read l rm r v).
Proof. unfold MemoryItem_read. preserves_tac. Qed.
#[export] Hint Resolve expired_item_read : preserves.

Lemma expired_item_modify l c m p v :
  preserves expired_stable (MemoryItem_modify l c m p v).
Proof. unfold MemoryItem_modify. preserves_tac. Qed.
#[export] Hint Resolve expired_item_modify : preserves.

Lemma expired_resolve_link s i :
  preserves expired_stable (BaseMemory_resolve_link s i).
Proof. unfold BaseMemory_resolve_link. preserves_tac. Qed.
#[export] Hint Resolve expired_resolve_link : preserves.

Lemma expired_revoke_link s i : preserves expired_stable (revoke_link s i).
Proof.
  unfold revoke_link, ListMemory_revoke_link, BaseMemory_revoke_link.
  preserves_tac.
Qed.
#[export] Hint Resolve expired_revoke_link : preserves.

Lemma expired_remove_child s c u :
  preserves expired_stable (TreeMemoryItem_remove_child s c u).
Proof. unfold TreeMemoryItem_remove_child. preserves_tac. Qed.
#[export] Hint Resolve expired_remove_child : preserves.

Lemma expired_add_child_step s c :
  preserves expired_stable (TreeMemoryItem_add_child_step s c).
Proof. unfold TreeMemoryItem_add_child_step. preserves_tac. Qed.
#[export] Hint Resolve expired_add_child_step : preserves.

Lemma expired_add_child s c r a :
  preserves expired_stable (TreeMemoryItem_add_child s c r a).
Proof. unfold TreeMemoryItem_add_child. preserves_tac. Qed.
#[export] Hint Resolve expired_add_child : preserves.

Lemma expired_become_root s r a :
  preserves expired_stable (TreeMemoryItem_become_root s r a).
Proof. unfold TreeMemoryItem_become_root. preserves_tac. Qed.
#[export] Hint Resolve expired_become_root : preserves.

Section ExpiredDelete.
Context (dyn_delete : string -> string -> bool -> bool -> M bool).
Context (Hdyn : forall t i f r, preserves expired_stable (dyn_delete t i f r)).

Lemma expired_BaseMemory_delete s i f r :
  preserves expired_stable (BaseMemory_delete dyn_delete s i f r).
Proof using Hdyn. unfold BaseMemory_delete, strip_round. preserves_tac. Qed.

Lemma expired_ListMemory_delete s i f r :
  preserves expired_stable (ListMemory_delete dyn_delete s i f r).
Proof using Hdyn.
  pose proof expired_BaseMemory_delete.
  unfold ListMemory_delete. preserves_tac.
Qed.

Lemma expired_delete_children s r uids b :
  preserves expired_stable (delete_children dyn_delete s r uids b).
Proof using Hdyn.
  revert b. induction uids as [|u uids IH]; intros b; simpl; preserves_tac.
Qed.

Lemma expired_TreeMemory_delete s i f r :
  preserves expired_stable (TreeMemory_delete dyn_delete s i f r).
Proof using Hdyn.
  pose proof expired_BaseMemory_delete.
  pose proof expired_delete_children.
  unfold TreeMemory_delete, str_list_remove_or_raise. preserves_tac.
Qed.
End ExpiredDelete.

Lemma expired_delete fuel s i f r :
  preserves expired_stable (delete fuel s i f r).
Proof.
  revert s i f r. induction fuel as [|fuel IH]; intros s i f r; simpl.
  - apply preserves_out_of_fuel; exact _.
  - pose proof (expired_BaseMemory_delete _ IH).
    pose proof (expired_ListMemory_delete _ IH).
    pose proof (expired_TreeMemory_delete _ IH).
    preserves_tac.
Qed.

Lemma expired_BaseMemory_read fuel s i r rm rn kw :
  preserves expired_stable (BaseMemory_read fuel s i r rm rn kw).
Proof.
  revert s i rm rn kw. induction fuel as [|fuel IH]; intros s i rm rn kw; simpl;
    preserves_tac.
Qed.

Lemma expired_BaseMemory_modify fuel s i c rec md r :
  preserves expired_stable (BaseMemory_modify fuel s i c rec md r).
Proof.
  revert s i md. induction fuel as [|fuel IH]; intros s i md; simpl;
    preserves_tac.
Qed.

(** [add] is the one operation that lifts an item out of [EXPIRED]. *)
Lemma state_at_Some w l s :
  state_at w l = Some s <-> exists it, heap w !! l = Some it /\ state it = s.
Proof.
  unfold state_at. destruct (heap w !! l) as [it|]; simpl; split.
  - intros [= <-]. eauto.
  - intros (it' & [= <-] & <-). reflexivity.
  - discriminate.
  - intros (it' & H & _). discriminate.
Qed.

Lemma state_at_insert w l x h :
  (l < length h)%nat ->
  state_at (mkWorld (now w) (<[l := x]> h) (_memories w)) l = Some (state x).
Proof.
  intros Hl. unfold state_at. simpl.
  rewrite list_lookup_insert_eq by exact Hl. reflexivity.
Qed.

(** [BaseMemory.add] leaves the item it inserts in state [NORMAL],
    whatever its state was. *)
Lemma BaseMemory_add_sets_NORMAL self l w u w' :
  BaseMemory_add self l w = (Ret u, w') -> state_at w' l = Some NORMAL.
Proof.
  unfold BaseMemory_add. intros H.
  apply bind_Ret_inv in H as (it & w1 & H1 & H).
  apply get_item_inv in H1 as [-> Hit].
  apply bind_Ret_inv in H as (m & w1 & H1 & H).
  apply get_self_inv in H1 as [-> Hm].
  destruct (dict_mem (uid it) (items m)); [discriminate|].
  apply bind_Ret_inv in H as (? & w1 & H1 & H).
  apply upd_item_inv in H1 as (it1 & Hit1 & ->).
  apply bind_Ret_inv in H as (? & w2 & H2 & H).
  apply upd_mem_inv in H2 as (m2 & Hm2 & ->). simpl in *.
  apply bind_Ret_inv in H as (? & w3 & H3 & H).
  apply upd_item_inv in H3 as (it3 & Hit3 & ->). simpl in *.
  apply bind_Ret_inv in H as (? & w4 & H4 & H).
  unfold MemoryItem_update_history in H4.
  apply bind_Ret_inv in H4 as (t & w5 & H5 & H4).
  inversion H5; subst; clear H5.
  apply upd_item_inv in H4 as (it4 & Hit4 & ->). simpl in *.
  inversion H; subst; clear H.
  assert (Hl : (l < length (heap w))%nat) by (eapply lookup_lt_Some; eauto).
  unfold state_at. simpl.
  rewrite list_lookup_insert_eq in Hit4
    by (rewrite length_insert; exact Hl).
  inversion Hit4; subst; clear Hit4.
  rewrite list_lookup_insert_eq
    by (rewrite !length_insert; exact Hl).
  simpl. destruct it3; reflexivity.
Qed.




(** ** Snapshots: [load] after [save] *)

(** [save] reads the fields of every item and changes nothing. *)
Lemma dump_items_run w (its : Dict loc) :
  (forall k l, In (k, l) its -> exists it, heap w !! l = Some it) ->
  exists ds,
    dump_items its w = (Ret ds, w) /\
    map fst ds = map fst its /\
    forall k d, In (k, d) ds ->
      exists l it, In (k, l) its /\ heap w !! l = Some it /\ d = dump_item it.
Proof.
  induction its as [|[k l] its IH]; intros Hok; simpl.
  - exists []. split_all; [reflexivity | reflexivity | intros ? ? []].
  - destruct (Hok k l) as (it & Hit); [left; reflexivity|].
    destruct IH as (ds & Hrun & Hkeys & Hds);
      [intros k' l' H; apply (Hok k' l'); right; exact H|].
    exists ((k, dump_item it) :: ds). split_all.
    + unfold MemoryItem_dict.
      rewrite (bind_run _ _ _ _ _
                 (bind_run _ _ _ _ _ (get_item_run _ _ _ Hit))).
      cbn [ret]. rewrite (bind_run _ _ _ _ _ Hrun). reflexivity.
    + simpl. rewrite Hkeys. reflexivity.
    + intros k' d [[= <- <-]|H].
      * exists l, it. split_all; [left; reflexivity | exact Hit | reflexivity].
      * destruct (Hds k' d H) as (l' & it' & Hin & Hl' & Hd).
        exists l', it'. split_all; [right; exact Hin | exact Hl' | exact Hd].
Qed.

(** A dump keeps what [saved_item_ok] looks at. *)
Lemma saved_item_ok_dump cls it :
  saved_item_ok cls (dump_item it) = saved_item_ok cls it.
Proof. destruct it; reflexivity. Qed.

(** Values without model instances are dumped as they are. *)
Lemma dump_value_plain : forall c, plain c = true -> dump_value c = c.
Proof.
  fix IH 1. intros [s|z|l|d|cls fields] H; cbn [dump_value plain] in *.
  - reflexivity.
  - reflexivity.
  - f_equal. induction l as [|x l IHl]; [reflexivity|].
    cbn [forallb map] in *. apply andb_prop in H as [Hx Hl].
    rewrite (IH x Hx), (IHl Hl). reflexivity.
  - f_equal. induction d as [|[k v] d IHd]; [reflexivity|].
    cbn [forallb map] in *. apply andb_prop in H as [Hv Hd].
    rewrite (IH v Hv), (IHd Hd). reflexivity.
  - discriminate.
Qed.

Lemma dump_args_plain d :
  forallb (fun '(k, v) => plain v) d = true -> dump_args d = d.
Proof.
  unfold dump_args. induction d as [|[k v] d IH]; [reflexivity|].
  cbn [forallb map]. intros H. apply andb_prop in H as [Hv Hd].
  rewrite (dump_value_plain v Hv), (IH Hd). reflexivity.
Qed.

Lemma dump_entry_plain e : plain_entry e = true -> dump_entry e = e.
Proof.
  unfold plain_entry, dump_entry. intros H. apply andb_prop in H as [Hc Hk].
  rewrite (dump_value_plain _ Hc).
  assert (Hmap : map (fun '(k, a) => (k, dump_kwarg a)) (h_kwargs e)
                 = h_kwargs e).
  { induction (h_kwargs e) as [|[k a] l IH]; [reflexivity|].
    cbn [forallb map] in *. apply andb_prop in Hk as [Ha Hl].
    rewrite (IH Hl). destruct a as [x|c]; cbn [dump_kwarg]; [reflexivity|].
    rewrite (dump_value_plain c Ha). reflexivity. }
  rewrite Hmap. destruct e; reflexivity.
Qed.

Lemma dump_item_plain it : plain_item it = true -> dump_item it = it.
Proof.
  unfold plain_item. intros H.
  apply andb_prop in H as [H Hh]. apply andb_prop in H as [H Ho].
  apply andb_prop in H as [Hc Hb].
  destruct it; cbn [content bind_args others history dump_item] in *.
  rewrite (dump_value_plain _ Hc), (dump_args_plain _ Hb),
    (dump_args_plain _ Ho).
  f_equal. induction history0 as [|e l IH]; [reflexivity|].
  cbn [forallb map] in *. apply andb_prop in Hh as [He Hl].
  rewrite (dump_entry_plain e He), (IH Hl). reflexivity.
Qed.

Lemma saved_item_ok_class cls d :
  saved_item_ok cls d = true ->
  (if class_builds_tree_items cls then set_is_tree true d
   else set_is_tree false
          (set_depth 0 (set_parent_uid None (set_children_uids [] d)))) = d.
Proof.
  unfold saved_item_ok. intros H. apply andb_prop in H as [_ H].
  destruct d; simpl in *.
  destruct cls; simpl in *;
    repeat match goal with
           | H : _ && _ = true |- _ => apply andb_prop in H as [? ?]
           | H : negb ?b = true |- _ => destruct b; simpl in H; try discriminate
           | H : (_ =? _) = true |- _ => apply Z.eqb_eq in H; subst
           | H : match ?x with _ => _ end = true |- _ =>
               destruct x; try discriminate
           end;
    subst; reflexivity.
Qed.

(** The constructor call that [load] makes for one saved item. *)
Lemma new_item_run cls d w :
  saved_item_ok cls d = true ->
  new_item (class_builds_tree_items cls) d w
  = (Ret (length (heap w)),
     mkWorld (now w) (heap w ++ [reloaded (now w) d]) (_memories w)).
Proof.
  intros Hok. pose proof (saved_item_ok_class cls d Hok) as Hcls.
  unfold new_item. rewrite Hcls. clear Hcls.
  unfold saved_item_ok in Hok. apply andb_prop in Hok as [Hexp _].
  set (w1 := mkWorld (now w) (heap w ++ [d]) (_memories w)).
  assert (Hlen : heap w1 !! length (heap w) = Some d).
  { simpl. rewrite lookup_app_r by lia. rewrite Nat.sub_diag. reflexivity. }
  assert (Hins : forall x, <[length (heap w) := x]> (heap w1)
                           = (heap w ++ [x])%list).
  { intros x. simpl.
    replace (length (heap w)) with (length (heap w) + 0)%nat at 1 by lia.
    rewrite insert_app_r. reflexivity. }
  assert (Hval : (match duration d with
                  | Some d0 =>
                      match parse_duration d0 with
                      | DurInvalid => raise ValueError
                      | DurOverflow => raise OverflowError
                      | _ => ret tt
                      end
                  | None => ret tt
                  end) w = (Ret tt, w)).
  { destruct (duration d) as [s|]; [|reflexivity].
    destruct (parse_duration s); try discriminate; reflexivity. }
  rewrite (bind_run _ _ _ _ _ Hval). cbv beta.
  assert (Halloc : alloc_item d w = (Ret (length (heap w)), w1)) by reflexivity.
  rewrite (bind_run _ _ _ _ _ Halloc). cbv beta.
  assert (Hve : MemoryItem_validate_expiration (length (heap w)) w1
                = (Ret tt, w1)).
  { unfold MemoryItem_validate_expiration.
    rewrite (bind_run _ _ _ _ _ (get_item_run _ _ _ Hlen)). cbv beta.
    destruct (duration d) as [s|]; [|reflexivity].
    destruct (end_time d); [|reflexivity].
    destruct (parse_duration s); discriminate. }
  assert (Hpost : MemoryItem_model_post_init (length (heap w)) w1
                  = (Ret tt, mkWorld (now w) (heap w ++ [reloaded (now w) d])
                               (_memories w))).
  { unfold MemoryItem_model_post_init.
    rewrite (bind_run _ _ _ _ _ Hve). cbv beta.
    unfold MemoryItem_update_history.
    rewrite (bind_run _ _ _ _ _ (eq_refl : datetime_now w1 = (Ret (now w), w1))).
    cbv beta. rewrite (upd_item_run _ _ _ _ Hlen), Hins. reflexivity. }
  rewrite (bind_run _ _ _ _ _ Hpost). reflexivity.
Qed.

Lemma set_items_set_items a b m : set_items a (set_items b m) = set_items a m.
Proof. destruct m; reflexivity. Qed.

Lemma set_items_same m : set_items (items m) m = m.
Proof. destruct m; reflexivity. Qed.

Lemma items_set_items a m : items (set_items a m) = a.
Proof. destruct m; reflexivity. Qed.

(** The loop of [load] over the saved items. *)
Lemma load_items_run cls self (ds : Dict ItemDict) :
  forall w mem,
    dict_get self (_memories w) = Some mem ->
    (forall k d, In (k, d) ds -> saved_item_ok cls d = true) ->
    List.NoDup (map fst ds) ->
    (forall k, In k (map fst ds) -> dict_get k (items mem) = None) ->
    exists w' its',
      for_each ds (fun kv =>
        item <- new_item (class_builds_tree_items cls) (snd kv) ;;
        upd_mem self (fun m =>
          set_items (dict_set (fst kv) item (items m)) m)) w = (Ret tt, w') /\
      now w' = now w /\
      dict_get self (_memories w') = Some (set_items its' mem) /\
      dict_keys its' = (dict_keys (items mem) ++ map fst ds)%list /\
      (forall l it, heap w !! l = Some it -> heap w' !! l = Some it) /\
      (forall k d, In (k, d) ds ->
         exists l', dict_get k its' = Some l' /\
                    heap w' !! l' = Some (reloaded (now w) d)) /\
      (forall k, ~ In k (map fst ds) -> dict_get k its' = dict_get k (items mem)).
Proof.
  induction ds as [|[k d] ds IH]; intros w mem Hmem Hok Hnd Hfresh.
  - exists w, (items mem). simpl. rewrite set_items_same, app_nil_r.
    split_all; auto. intros ? ? [].
  - simpl in *. apply List.NoDup_cons_iff in Hnd as [Hk Hnd].
    pose proof (new_item_run cls d w (Hok k d (or_introl eq_refl))) as Hnew.
    set (l0 := length (heap w)) in *.
    set (w1 := mkWorld (now w) (heap w ++ [reloaded (now w) d]) (_memories w))
      in *.
    set (mem1 := set_items (dict_set k l0 (items mem)) mem).
    set (w2 := mkWorld (now w1) (heap w1) (dict_set self mem1 (_memories w1))).
    assert (Hupd : upd_mem self (fun m =>
                     set_items (dict_set k l0 (items m)) m) w1 = (Ret tt, w2))
      by exact (upd_mem_run self _ w1 mem Hmem).
    destruct (IH w2 mem1) as (w' & its' & Hrun & Hnow & Hreg & Hkeys & Hext
                              & Hnew' & Hold).
    + simpl. apply dict_get_set_eq.
    + intros k' d' H. apply (Hok k' d'). right. exact H.
    + exact Hnd.
    + intros k' H. unfold mem1. rewrite items_set_items.
      rewrite dict_get_set_ne by (intros ->; exact (Hk H)).
      apply Hfresh. right. exact H.
    + exists w', its'. split_all.
      * rewrite (bind_run _ _ _ _ _
                   (eq_trans (bind_run _ _ _ _ _ Hnew) Hupd)).
        exact Hrun.
      * rewrite Hnow. reflexivity.
      * rewrite Hreg. unfold mem1. rewrite set_items_set_items. reflexivity.
      * rewrite Hkeys. unfold mem1. rewrite items_set_items.
        rewrite dict_keys_set_new by (apply Hfresh; left; reflexivity).
        rewrite <- app_assoc. reflexivity.
      * intros l it H. apply Hext. simpl. apply lookup_app_l_Some. exact H.
      * intros k' d' [[= <- <-]|H].
        -- exists l0. split.
           ++ rewrite (Hold k Hk). unfold mem1. rewrite items_set_items.
              apply dict_get_set_eq.
           ++ apply Hext. simpl. unfold l0.
              rewrite lookup_app_r by lia. rewrite Nat.sub_diag. reflexivity.
        -- exact (Hnew' k' d' H).
      * intros k' H. rewrite Hold by tauto. unfold mem1.
        rewrite items_set_items. apply dict_get_set_ne. tauto.
Qed.

Lemma BaseMemory_load_run cls data w1 :
  dict_get (d_uid data) (_memories w1) = None ->
  (forall k d, In (k, d) (d_items data) -> saved_item_ok cls d = true) ->
  List.NoDup (map fst (d_items data)) ->
  exists w2 its',
    BaseMemory_load cls data (class_builds_tree_items cls) w1
    = (Ret (d_uid data), w2) /\
    now w2 = now w1 /\
    dict_get (d_uid data) (_memories w2)
    = Some (mkMemory cls (d_uid data) its' (d_links data) [] [] []) /\
    dict_keys its' = map fst (d_items data) /\
    (forall k d, In (k, d) (d_items data) ->
       exists l', dict_get k its' = Some l' /\
                  heap w2 !! l' = Some (reloaded (now w1) d)).
Proof.
  intros Hfree Hok Hnd.
  set (u := d_uid data) in *.
  set (mem0 := mkMemory cls u [] [] [] [] []).
  set (w0 := mkWorld (now w1) (heap w1) (dict_set u mem0 (_memories w1))).
  assert (Hreg : new_memory cls u w1 = (Ret u, w0)).
  { unfold new_memory, MemorySystem_register_memory, bind, get_world, put_world,
      dict_mem, ret. simpl. fold u. rewrite Hfree. reflexivity. }
  destruct (load_items_run cls u (d_items data) w0 mem0)
    as (w' & its' & Hrun & Hnow & Hmem & Hkeys & _ & Hnew & _).
  - simpl. apply dict_get_set_eq.
  - exact Hok.
  - exact Hnd.
  - reflexivity.
  - eexists _, its'. split_all.
    + unfold BaseMemory_load. fold u.
      rewrite (bind_run _ _ _ _ _ Hreg). cbv beta.
      rewrite (bind_run _ _ _ _ _ Hrun). cbv beta.
      rewrite (bind_run _ _ _ _ _ (upd_mem_run u _ w' _ Hmem)). reflexivity.
    + simpl. exact Hnow.
    + simpl. rewrite dict_get_set_eq. reflexivity.
    + exact Hkeys.
    + simpl. exact Hnew.
Qed.

(** A container whose items are plain loads back with [reloaded] items,
    when it loads back with [restored] ones. *)
Lemma loads_back_plain w self m :
  (forall k l it,
     dict_get k (items m) = Some l -> heap w !! l = Some it ->
     plain_item it = true) ->
  loads_back restored w self m -> loads_back reloaded w self m.
Proof.
  intros Hplain (data & Hsave & Hload). exists data. split; [exact Hsave|].
  intros w1 Hheap Hfree.
  destruct (Hload w1 Hheap Hfree)
    as (w2 & m' & H1 & H2 & H3 & H4 & H5 & H6 & H7 & H8 & H9 & Hitems).
  exists w2, m'. split_all; try assumption.
  intros k l it Hk Hit. destruct (Hitems k l it Hk Hit) as (l' & Hk' & Hl').
  exists l'. split; [exact Hk'|].
  rewrite Hl'. unfold restored.
  rewrite (dump_item_plain it (Hplain k l it Hk Hit)). reflexivity.
Qed.

(** C4, as amended.  For every registered container of any class whose
    items are as their constructors left them and of the class its [load]
    builds ([savable]), [load(save(c))] reproduces the class, the forward
    link table, the order list or root list and the keys, with an empty
    reverse index, and rebuilds every item from its dump ([restored]):
    the history log is the original log followed by one new [init] entry,
    and every model instance among the values of the item has become the
    dictionary of its fields.  When no item holds a model instance
    ([plain_items]), every field except the history log comes back as it
    was ([reloaded]). *)
Theorem C4_load_save_up_to_init_entry :
  forall w self m,
    mem_of w self = Some m ->
    savable w self m = true ->
    loads_back restored w self m /\
    (plain_items w m = true -> loads_back reloaded w self m).
Proof.
  intros w self m Hm Hsav.
  assert (Hgen : loads_back restored w self m).
  2: { split; [exact Hgen|]. intros Hp.
       apply (loads_back_plain _ _ _) ; [|exact Hgen].
       intros k l it Hk Hit. unfold plain_items in Hp.
       rewrite forallb_forall in Hp.
       specialize (Hp (k, l) (dict_get_In _ _ _ Hk)). cbn [snd] in Hp.
       rewrite Hit in Hp. exact Hp. }
  unfold loads_back, mem_of in *.
  unfold savable in Hsav.
  apply andb_prop in Hsav as [Hsav Hitems].
  apply andb_prop in Hsav as [Huid Hkeys].
  apply String.eqb_eq in Huid. apply keys_distinct_NoDup in Hkeys.
  rewrite forallb_forall in Hitems.
  destruct (dump_items_run w (items m)) as (ds & Hdump & Hdk & Hds).
  { intros k l Hin. specialize (Hitems (k, l) Hin). cbn [snd] in Hitems.
    destruct (heap w !! l) as [it|]; [eauto | discriminate]. }
  assert (Hbase : BaseMemory_save self w
                  = (Ret (mkSave (m_uid m) ds (_links m) (m_class m) None None), w)).
  { unfold BaseMemory_save.
    rewrite (bind_run _ _ _ _ _ (get_self_run _ _ _ Hm)). cbv beta.
    rewrite (bind_run _ _ _ _ _ Hdump). reflexivity. }
  set (data := mkSave (m_uid m) ds (_links m) (m_class m)
                 (match m_class m with
                  | ListMemoryC => Some (item_list m) | _ => None end)
                 (match m_class m with
                  | TreeMemoryC => Some (root_uids m) | _ => None end)).
  exists data. split.
  { unfold save. rewrite (bind_run _ _ _ _ _ (get_self_run _ _ _ Hm)). cbv beta.
    unfold data, ListMemory_save, TreeMemory_save.
    destruct (m_class m); try exact Hbase;
      rewrite (bind_run _ _ _ _ _ Hbase); cbv beta;
      rewrite (bind_run _ _ _ _ _ (get_self_run _ _ _ Hm)); reflexivity. }
  intros w1 Hheap Hfree.
  assert (Hok : forall k d, In (k, d) (d_items data) ->
                            saved_item_ok (m_class m) d = true).
  { intros k d Hin. destruct (Hds k d Hin) as (l & it & Hl & Hit & ->).
    specialize (Hitems (k, l) Hl). cbn [snd] in Hitems. rewrite Hit in Hitems.
    rewrite saved_item_ok_dump. exact Hitems. }
  destruct (BaseMemory_load_run (m_class m) data w1)
    as (w2 & its' & Hload & Hnow & Hreg & Hk' & Hnew).
  { simpl. rewrite Huid. exact Hfree. }
  { exact Hok. }
  { simpl. rewrite Hdk. exact Hkeys. }
  simpl in Hload, Hreg. rewrite Huid in Hload, Hreg.
  assert (Hlook : forall k l it,
            dict_get k (items m) = Some l -> heap w !! l = Some it ->
            exists l', dict_get k its' = Some l' /\
                       heap w2 !! l' = Some (restored (now w1) it)).
  { intros k l it Hkl Hit. apply dict_get_In in Hkl.
    assert (In (k, dump_item it) ds) as Hin.
    { assert (In k (map fst ds)) as Hkin
        by (rewrite Hdk; change k with (fst (k, l)); apply in_map; exact Hkl).
      apply in_map_iff in Hkin as ([k0 d0] & Hk0 & Hin0). simpl in Hk0. subst k0.
      destruct (Hds k d0 Hin0) as (l0 & it0 & Hl0 & Hd0 & ->).
      assert (l0 = l) as ->.
      { pose proof (dict_get_of_In _ _ _ Hkeys Hl0) as E1.
        pose proof (dict_get_of_In _ _ _ Hkeys Hkl) as E2. congruence. }
      assert (it0 = it) as -> by congruence. exact Hin0. }
    exact (Hnew k (dump_item it) Hin). }
  unfold load.
  destruct (m_class m) eqn:Ecls; simpl in Hload.
  - eexists w2, _.
    split_all; [exact Hload | exact Hreg | reflexivity | symmetry; exact Huid
               | reflexivity | reflexivity | discriminate | discriminate
               | exact (eq_trans Hk' Hdk) | exact Hlook].
  - eexists w2, _.
    split_all; [exact Hload | exact Hreg | reflexivity | symmetry; exact Huid
               | reflexivity | reflexivity | discriminate | discriminate
               | exact (eq_trans Hk' Hdk) | exact Hlook].
  - unfold ListMemory_load.
    rewrite (bind_run _ _ _ _ _ Hload). cbv beta.
    rewrite (bind_run _ _ _ _ _ (upd_mem_run self _ w2 _ Hreg)). cbv beta.
    eexists _, _.
    split_all; [reflexivity | simpl; apply dict_get_set_eq | reflexivity
               | symmetry; exact Huid | reflexivity | reflexivity
               | reflexivity | discriminate
               | exact (eq_trans Hk' Hdk) | exact Hlook].
  - unfold TreeMemory_load.
    rewrite (bind_run _ _ _ _ _ Hload). cbv beta.
    rewrite (bind_run _ _ _ _ _ (upd_mem_run self _ w2 _ Hreg)). cbv beta.
    eexists _, _.
    split_all; [reflexivity | simpl; apply dict_get_set_eq | reflexivity
               | symmetry; exact Huid | reflexivity | reflexivity
               | discriminate | reflexivity
               | exact (eq_trans Hk' Hdk) | exact Hlook].
Qed.

(** What [reloaded] changes and what it keeps. *)
Lemma reloaded_fields t it :
  history (reloaded t it)
  = (history it ++ [mkEntry t "init" (state it) (content it) [] None])%list /\
  set_history (history it) (reloaded t it) = it.
Proof. destruct it; split; reflexivity. Qed.

(** The amended statement at the ordered container of
    [containers_scene], the tree of [tree_scene], the container of
    [link_scene] that holds a link, and the container of [note_scene],
    whose item holds a model instance. *)
Lemma C4_witness :
  (mem_of containers_world "list" = Some list_memory /\
   savable containers_world "list" list_memory = true /\
   plain_items containers_world list_memory = true /\
   loads_back reloaded containers_world "list" list_memory) /\
  (mem_of tree_world "tree" = Some tree_memory /\
   savable tree_world "tree" tree_memory = true /\
   plain_items tree_world tree_memory = true /\
   loads_back reloaded tree_world "tree" tree_memory) /\
  (mem_of link_world "mem2" = Some linking_memory /\
   savable link_world "mem2" linking_memory = true /\
   plain_items link_world linking_memory = true /\
   loads_back reloaded link_world "mem2" linking_memory) /\
  (mem_of note_world "notes" = Some note_memory /\
   savable note_world "notes" note_memory = true /\
   loads_back restored note_world "notes" note_memory).
Proof.
  assert (L1 : mem_of containers_world "list" = Some list_memory)
    by (vm_compute; reflexivity).
  assert (L2 : savable containers_world "list" list_memory = true)
    by (vm_compute; reflexivity).
  assert (L3 : plain_items containers_world list_memory = true)
    by (vm_compute; reflexivity).
  assert (T1 : mem_of tree_world "tree" = Some tree_memory)
    by (vm_compute; reflexivity).
  assert (T2 : savable tree_world "tree" tree_memory = true)
    by (vm_compute; reflexivity).
  assert (T3 : plain_items tree_world tree_memory = true)
    by (vm_compute; reflexivity).
  assert (K1 : mem_of link_world "mem2" = Some linking_memory)
    by (vm_compute; reflexivity).
  assert (K2 : savable link_world "mem2" linking_memory = true)
    by (vm_compute; reflexivity).
  assert (K3 : plain_items link_world linking_memory = true)
    by (vm_compute; reflexivity).
  assert (N1 : mem_of note_world "notes" = Some note_memory)
    by (vm_compute; reflexivity).
  assert (N2 : savable note_world "notes" note_memory = true)
    by (vm_compute; reflexivity).
  split_all; try assumption.
  - exact (proj2 (C4_load_save_up_to_init_entry _ _ _ L1 L2) L3).
  - exact (proj2 (C4_load_save_up_to_init_entry _ _ _ T1 T2) T3).
  - exact (proj2 (C4_load_save_up_to_init_entry _ _ _ K1 K2) K3).
  - exact (proj1 (C4_load_save_up_to_init_entry _ _ _ N1 N2)).
Defined.

(** C4, as stated, fails in two ways.  An exact round trip would rebuild
    every item with its history log unchanged: for the container of
    [snapshot_scene], reloaded after a registry reset, the item under [u1]
    comes back with three history entries where the original has two.
    And the other fields do not all come back either: the item of
    [note_scene] comes back with the dictionary of the fields of its
    content in the place of the model instance. *)
Lemma C4_counterexample_history_grows :
  ~ loads_back (fun _ it => it) snapshot_world "serial_test" snapshot_memory /\
  ~ loads_back reloaded note_world "notes" note_memory.
Proof.
  split.
  - intros (data & Hsave & Hload).
    assert (Hs : save "serial_test" snapshot_world
                 = (Ret (mkSave "serial_test"
                           [("u1", match heap snapshot_world !! 0%nat with
                                   | Some it => it
                                   | None => default_fields "" (CStr "") "" 0
                                   end)] [] BaseMemoryC None None),
                    snapshot_world))
      by (vm_compute; reflexivity).
    rewrite Hs in Hsave. injection Hsave as <-.
    destruct (Hload (mkWorld 0 (heap snapshot_world) []) eq_refl eq_refl)
      as (w2 & m' & Hl & Hm & _ & _ & _ & _ & _ & _ & _ & Hitems).
    vm_compute in Hl. injection Hl as <-.
    vm_compute in Hm. injection Hm as <-.
    destruct (Hitems "u1" 0%nat
                (mkItem "u1" (CStr "test") "test" 0 OVERWRITE KEEP None [] []
                   NORMAL None None 0 None None None None
                   [mkEntry 0 "init" NORMAL (CStr "test") [] None;
                    mkEntry 0 "added" NORMAL (CStr "test") [] None]
                   false 0 None []) eq_refl eq_refl) as (l' & Hk & Hh).
    vm_compute in Hk. injection Hk as <-.
    vm_compute in Hh. discriminate Hh.
  - intros (data & Hsave & Hload).
    assert (Hs : save "notes" note_world
                 = (Ret (mkSave "notes"
                           [("n1", match heap note_world !! 0%nat with
                                   | Some it => dump_item it
                                   | None => default_fields "" (CStr "") "" 0
                                   end)] [] BaseMemoryC None None),
                    note_world))
      by (vm_compute; reflexivity).
    rewrite Hs in Hsave. injection Hsave as <-.
    destruct (Hload (mkWorld 0 (heap note_world) []) eq_refl eq_refl)
      as (w2 & m' & Hl & Hm & _ & _ & _ & _ & _ & _ & _ & Hitems).
    vm_compute in Hl. injection Hl as <-.
    vm_compute in Hm. injection Hm as <-.
    destruct (Hitems "n1" 0%nat
                (mkItem "n1" note "test" 0 OVERWRITE KEEP None [] []
                   NORMAL None None 0 None None None None
                   [mkEntry 0 "init" NORMAL note [] None;
                    mkEntry 0 "added" NORMAL note [] None]
                   false 0 None []) eq_refl eq_refl) as (l' & Hk & Hh).
    vm_compute in Hk. injection Hk as <-.
    vm_compute in Hh. discriminate Hh.
Qed.

(** ** Trees: cached depth and re-parenting *)

(** C5.  The path [R - A - B - C - D] satisfies the depth invariant.
    Deleting [A] without its children succeeds and re-parents [B] under
    [R]; afterwards [D], whose parent is [C], still carries depth 4 while
    [C] carries depth 2, so the invariant is broken.  The same happens
    under [become_root] when the root [R] is deleted instead: the refresh
    reaches two levels below the re-parented node only. *)
Theorem C5_depth_stale_below_second_level :
  let w1 := exec (delete 10 "tree" "A" false false) deep_tree_world in
  let w2 := exec (delete 10 "tree" "R" false false) deep_tree_world in
  depth_invariant deep_tree_world "tree" = true /\
  (result (delete 10 "tree" "A" false false) deep_tree_world = Ret true /\
   option_map parent_uid (item_in w1 "tree" "B") = Some (Some "R") /\
   option_map parent_uid (item_in w1 "tree" "D") = Some (Some "C") /\
   option_map depth (item_in w1 "tree" "C") = Some 2 /\
   option_map depth (item_in w1 "tree" "D") = Some 4 /\
   depth_invariant w1 "tree" = false) /\
  (result (delete 10 "tree" "R" false false) deep_tree_world = Ret true /\
   option_map parent_uid (item_in w2 "tree" "A") = Some None /\
   option_map parent_uid (item_in w2 "tree" "D") = Some (Some "C") /\
   option_map depth (item_in w2 "tree" "C") = Some 2 /\
   option_map depth (item_in w2 "tree" "D") = Some 4 /\
   depth_invariant w2 "tree" = false).
Proof. vm_compute. repeat split. Qed.

(** C6.  In [tree_scene] ([R] with children [A; B], [A] with child [C]),
    [delete(A, with_children=False)] removes [A] and makes [C] a child of
    [R] at depth 1, but [R]'s child list becomes [B; C], not [C; B]: [A]
    is removed first and [C] is then appended at the end. *)
Theorem C6_lift_appends_after_siblings :
  let w' := exec (delete 10 "tree" "A" false false) tree_world in
  option_map children_uids (item_in tree_world "tree" "R") = Some ["A"; "B"] /\
  option_map children_uids (item_in tree_world "tree" "A") = Some ["C"] /\
  result (delete 10 "tree" "A" false false) tree_world = Ret true /\
  item_in w' "tree" "A" = None /\
  option_map parent_uid (item_in w' "tree" "C") = Some (Some "R") /\
  option_map depth (item_in w' "tree" "C") = Some 1 /\
  option_map children_uids (item_in w' "tree" "R") = Some ["B"; "C"].
Proof. vm_compute. repeat split. Qed.

(** ** Trees: traversals *)

Lemma visited_once_nil w m rm : visited_once w m rm [] [].
Proof. split; constructor. Qed.

Lemma visited_once_app w m rm c1 r1 c2 r2 :
  visited_once w m rm c1 r1 -> visited_once w m rm c2 r2 ->
  visited_once w m rm (c1 ++ c2) (r1 ++ r2).
Proof.
  intros [F1 P1] [F2 P2]. split.
  - apply Forall_app. split; assumption.
  - rewrite !map_app. apply Permutation_app; assumption.
Qed.

Lemma visited_value_inv rm l w v w' :
  visited_value rm l w = (Ret v, w') -> w' = w /\ value_of w rm l = Some v.
Proof.
  unfold visited_value, value_of. destruct rm.
  - intros [= <- <-]. auto.
  - intros H. apply bind_Ret_inv in H as (it & w1 & H1 & H).
    apply get_item_inv in H1 as [-> Hit]. inversion H; subst.
    rewrite Hit. auto.
Qed.

Lemma call_func_inv self m current calls w calls' w' :
  dict_get self (_memories w) = Some m ->
  call_func true self current calls w = (Ret calls', w') ->
  w' = w /\ exists c, calls' = (calls ++ [c]) /\
                      fst c = current /\ call_of w m current = Some c.
Proof.
  intros Hm H. unfold call_func in H.
  apply bind_Ret_inv in H as (it & w1 & H1 & H).
  apply get_item_inv in H1 as [-> Hit].
  unfold call_of. rewrite Hit.
  destruct (parent_uid it) as [p|].
  - apply bind_Ret_inv in H as (m0 & w1 & H1 & H).
    apply get_self_inv in H1 as [-> Hm0].
    assert (m0 = m) as -> by congruence.
    apply bind_Ret_inv in H as (parent & w1 & H1 & H).
    unfold py_getitem in H1.
    destruct (dict_get p (items m)) as [pl|]; [|discriminate].
    inversion H1; subst. inversion H; subst.
    split; [reflexivity|]. exists (current, Some parent). auto.
  - inversion H; subst. split; [reflexivity|].
    exists (current, None). auto.
Qed.

Lemma extends_once_refl w m rm acc : extends_once w m rm acc acc.
Proof.
  exists [], []. rewrite !app_nil_r. split_all; auto using visited_once_nil.
Qed.

Lemma extends_once_trans w m rm a b c :
  extends_once w m rm a b -> extends_once w m rm b c -> extends_once w m rm a c.
Proof.
  intros (r1 & c1 & Hr1 & Hc1 & V1) (r2 & c2 & Hr2 & Hc2 & V2).
  exists (r1 ++ r2), (c1 ++ c2).
  rewrite Hr2, Hr1, Hc2, Hc1, !app_assoc.
  split_all; auto using visited_once_app.
Qed.

Lemma traverse_children_spec w m rm visit :
  (forall u acc acc' w',
     visit u acc w = (Ret acc', w') -> w' = w /\ extends_once w m rm acc acc') ->
  forall uids acc acc' w',
    traverse_children visit uids acc w = (Ret acc', w') ->
    w' = w /\ extends_once w m rm acc acc'.
Proof.
  intros Hvisit. induction uids as [|u uids IH]; intros acc acc' w' H; simpl in H.
  - apply ret_inv in H as [-> ->]. auto using extends_once_refl.
  - apply bind_Ret_inv in H as (acc1 & w1 & H1 & H).
    apply Hvisit in H1 as [-> E1].
    apply IH in H as [-> E2].
    eauto using extends_once_trans.
Qed.

Lemma recursive_traverse_spec w self m rm order :
  dict_get self (_memories w) = Some m ->
  order = "pre" \/ order = "post" ->
  forall fuel u acc acc' w',
    recursive_traverse fuel self true rm order u acc w = (Ret acc', w') ->
    w' = w /\ extends_once w m rm acc acc'.
Proof.
  intros Hm Horder. induction fuel as [|fuel IH]; intros u acc acc' w' H;
    simpl in H; [discriminate|].
  apply bind_Ret_inv in H as (m0 & w1 & H1 & H).
  apply get_self_inv in H1 as [-> Hm0].
  assert (m0 = m) as -> by congruence.
  destruct (dict_get u (items m)) as [current|].
  2:{ apply ret_inv in H as [-> ->]. auto using extends_once_refl. }
  apply bind_Ret_inv in H as (calls1 & w1 & H1 & H).
  apply (call_func_inv _ m) in H1 as [-> ([c1 c2] & -> & Hc1 & Hc)];
    [|exact Hm].
  cbn [fst] in Hc1. subst c1. set (c := (current, c2)) in *.
  apply bind_Ret_inv in H as (results1 & w1 & H1 & H).
  apply bind_Ret_inv in H as (it & w2 & H2 & H).
  apply bind_Ret_inv in H as (acc2 & w3 & H3 & H).
  assert (Hcall : Forall (fun c0 => call_of w m (fst c0) = Some c0) [c])
    by (constructor; [exact Hc | constructor]).
  destruct Horder as [-> | ->]; simpl in H1, H.
  - apply bind_Ret_inv in H1 as (v & w4 & H4 & H1).
    apply visited_value_inv in H4 as [-> Hv].
    apply ret_inv in H1 as [-> ->].
    apply get_item_inv in H2 as [-> _].
    apply (traverse_children_spec w m rm) in H3 as [-> E3]; [|exact IH].
    apply ret_inv in H as [-> ->]. split; [reflexivity|].
    eapply extends_once_trans; [|exact E3].
    exists [v], [c]. split_all; try reflexivity.
    split; [exact Hcall|]. cbn [map]. unfold c. cbn [fst]. rewrite Hv.
    reflexivity.
  - apply ret_inv in H1 as [-> ->].
    apply get_item_inv in H2 as [-> _].
    apply (traverse_children_spec w m rm) in H3 as [-> E3]; [|exact IH].
    apply bind_Ret_inv in H as (v & w4 & H4 & H).
    apply visited_value_inv in H4 as [-> Hv].
    apply ret_inv in H as [-> ->].
    split; [reflexivity|].
    destruct E3 as (rs & cs & Hr & Hcs & [F P]). simpl in Hr, Hcs.
    exists (rs ++ [v]), (c :: cs). cbn [fst snd]. split_all.
    + rewrite Hr, app_assoc. reflexivity.
    + rewrite Hcs, <- app_assoc. reflexivity.
    + split; [constructor; [exact Hc | exact F]|].
      rewrite map_app. cbn [map]. unfold c. cbn [fst]. rewrite Hv.
      rewrite <- Permutation_cons_append. constructor. exact P.
Qed.

Lemma layer_level_spec w self m rm :
  dict_get self (_memories w) = Some m ->
  forall queue level next calls level' next' calls' w',
    layer_level self true rm queue (level, next, calls) w
    = (Ret (level', next', calls'), w') ->
    w' = w /\
    exists rs cs, level' = level ++ rs /\ calls' = calls ++ cs /\
                  visited_once w m rm cs rs.
Proof.
  intros Hm. induction queue as [|u queue IH];
    intros level next calls level' next' calls' w' H; simpl in H.
  - apply ret_inv in H as [[= -> -> ->] ->]. split; [reflexivity|].
    exists [], []. rewrite !app_nil_r. auto using visited_once_nil.
  - apply bind_Ret_inv in H as (m0 & w1 & H1 & H).
    apply get_self_inv in H1 as [-> Hm0].
    apply bind_Ret_inv in H as (current & w1 & H1 & H).
    unfold py_getitem in H1.
    destruct (dict_get u (items m0)) as [cur|]; [|discriminate].
    apply ret_inv in H1 as [-> ->].
    apply bind_Ret_inv in H as (v & w1 & H1 & H).
    apply visited_value_inv in H1 as [-> Hv].
    apply bind_Ret_inv in H as (it & w1 & H1 & H).
    apply get_item_inv in H1 as [-> _].
    apply bind_Ret_inv in H as (calls1 & w1 & H1 & H).
    apply (call_func_inv _ m) in H1 as [-> ([c1 c2] & -> & Hc1 & Hc)];
      [|exact Hm].
    cbn [fst] in Hc1. subst c1.
    apply IH in H as [-> (rs & cs & -> & -> & [F P])].
    split; [reflexivity|].
    exists (v :: rs), ((cur, c2) :: cs). rewrite <- !app_assoc. split_all; auto.
    split; [constructor; assumption|].
    cbn [map fst]. rewrite Hv. constructor. exact P.
Qed.

Lemma layer_loop_spec w self m rm :
  dict_get self (_memories w) = Some m ->
  forall fuel queue results calls results' calls' w',
    layer_loop fuel self true rm queue (results, calls) w
    = (Ret (results', calls'), w') ->
    w' = w /\
    exists levels cs, results' = results ++ levels /\ calls' = calls ++ cs /\
                      visited_once w m rm cs (concat levels).
Proof.
  intros Hm. induction fuel as [|fuel IH];
    intros queue results calls results' calls' w' H;
    destruct queue as [|u queue]; cbn [layer_loop] in H; try discriminate.
  - apply ret_inv in H as [[= -> ->] ->]. split; [reflexivity|].
    exists [], []. rewrite !app_nil_r. auto using visited_once_nil.
  - apply ret_inv in H as [[= -> ->] ->]. split; [reflexivity|].
    exists [], []. rewrite !app_nil_r. auto using visited_once_nil.
  - apply bind_Ret_inv in H as ([[level next] calls1] & w1 & H1 & H).
    apply (layer_level_spec w self m rm Hm (u :: queue)) in H1
      as [-> (rs & cs & -> & -> & V1)].
    apply IH in H as [-> (levels & cs' & -> & -> & V2)].
    split; [reflexivity|].
    exists (rs :: levels), (cs ++ cs'). rewrite <- !app_assoc.
    split_all; auto. simpl. apply visited_once_app; assumption.
Qed.

(** Whenever [traverse] with a visitor returns, it has changed nothing and
    the visitor was called once for each item in the results, with that
    item and its parent. *)
Lemma traverse_visitor_once fuel w self m u order return_meta r calls w' :
  mem_of w self = Some m ->
  TreeMemory_traverse fuel self u order true return_meta w
  = (Ret (r, calls), w') ->
  w' = w /\ visited_once w m return_meta calls (all_results r).
Proof.
  unfold mem_of, TreeMemory_traverse. intros Hm H.
  apply bind_Ret_inv in H as (? & w1 & H1 & H).
  unfold py_assert in H1.
  destruct (str_in (str_lower order) ["pre"; "post"; "layer"]) eqn:Ein;
    [|discriminate].
  apply ret_inv in H1 as [_ ->].
  destruct (String.eqb_spec (str_lower order) "layer") as [El|Enl].
  - apply bind_Ret_inv in H as ([results calls0] & w1 & H1 & H).
    apply ret_inv in H as [[= -> ->] ->].
    unfold layer_traverse in H1.
    apply bind_Ret_inv in H1 as (m0 & w2 & H2 & H1).
    apply get_self_inv in H2 as [-> _].
    destruct (dict_mem u (items m0)).
    + apply (layer_loop_spec w self m _ Hm) in H1
        as [-> (levels & cs & -> & -> & V)].
      split; [reflexivity | exact V].
    + apply ret_inv in H1 as [[= -> ->] ->].
      split; [reflexivity | apply visited_once_nil].
  - apply bind_Ret_inv in H as ([results calls0] & w1 & H1 & H).
    apply ret_inv in H as [[= -> ->] ->].
    assert (Hord : str_lower order = "pre" \/ str_lower order = "post").
    { unfold str_in in Ein. simpl in Ein.
      destruct (String.eqb_spec (str_lower order) "pre"); [auto|].
      destruct (String.eqb_spec (str_lower order) "post"); [auto|].
      destruct (String.eqb_spec (str_lower order) "layer"); [contradiction|].
      discriminate. }
    apply (recursive_traverse_spec w self m _ _ Hm Hord) in H1
      as [-> (rs & cs & Hr & Hc & V)].
    simpl in Hr, Hc. subst. split; [reflexivity | exact V].
Qed.

(** *** Traversing without a visitor *)

Lemma call_func_unchanged b self current calls :
  preserves eq (call_func b self current calls).
Proof. unfold call_func. preserves_tac. Qed.

Lemma visited_value_unchanged rm l : preserves eq (visited_value rm l).
Proof. unfold visited_value. preserves_tac. Qed.

Lemma bind_ret_run {A B} (a : A) (f : A -> M B) w : bind (ret a) f w = f a w.
Proof. reflexivity. Qed.

Lemma unchanged_run {A} (m : M A) w o w' :
  preserves eq m -> m w = (o, w') -> w' = w.
Proof. intros H E. specialize (H w). rewrite E in H. symmetry. exact H. Qed.

Lemma quiet_children visit visit0 :
  (forall u, quiet (visit u) (visit0 u)) ->
  forall uids, quiet (traverse_children visit uids)
                     (traverse_children visit0 uids).
Proof.
  intros Hv. induction uids as [|u uids IH]; intros r c r' c' w w' H;
    cbn [traverse_children] in *.
  - apply ret_inv in H as [[= -> ->] ->]. split; [reflexivity | reflexivity].
  - apply bind_Ret_inv in H as ([r1 c1] & w1 & H1 & H).
    apply Hv in H1 as [-> H1]. apply IH in H as [-> H].
    split; [reflexivity|]. intros c0.
    rewrite (bind_run _ _ _ _ _ (H1 c0)). apply H.
Qed.

Lemma quiet_recursive_traverse self rm order :
  forall fuel u,
    quiet (recursive_traverse fuel self true rm order u)
          (recursive_traverse fuel self false rm order u).
Proof.
  induction fuel as [|fuel IH]; intros u r c r' c' w w' H;
    cbn [recursive_traverse] in *; [discriminate|].
  apply bind_Ret_inv in H as (m & w1 & H1 & H).
  apply get_self_inv in H1 as [-> Hm].
  assert (Hself : forall A (f : Memory -> M A), bind (get_self self) f w = f m w)
    by (intros; apply bind_run, get_self_run, Hm).
  destruct (dict_get u (items m)) as [current|] eqn:Eu.
  2:{ apply ret_inv in H as [[= -> ->] ->]. split; [reflexivity|].
      intros c0. rewrite Hself, Eu. reflexivity. }
  apply bind_Ret_inv in H as (calls1 & w1 & H1 & H).
  apply (unchanged_run _ _ _ _ (call_func_unchanged _ _ _ _)) in H1 as ->.
  apply bind_Ret_inv in H as (results1 & w1 & H1 & H).
  cbn [fst snd] in H1.
  assert (w1 = w) as ->.
  { destruct (String.eqb order "pre").
    - apply bind_Ret_inv in H1 as (v & w2 & H2 & H1).
      apply (unchanged_run _ _ _ _ (visited_value_unchanged _ _)) in H2 as ->.
      apply ret_inv in H1 as [_ ->]. reflexivity.
    - apply ret_inv in H1 as [_ ->]. reflexivity. }
  apply bind_Ret_inv in H as (it & w2 & H2 & H).
  pose proof H2 as H2'. apply get_item_inv in H2' as [-> _].
  apply bind_Ret_inv in H as ([r3 c3] & w3 & H3 & H).
  apply (quiet_children _ _ IH) in H3 as [-> H3].
  assert (Hend : w' = w /\
                 forall c0,
                   ((if String.eqb order "post"
                     then v <- visited_value rm current ;;
                          ret ((fst (r3, c0) ++ [v])%list, snd (r3, c0))
                     else ret (r3, c0)) : M (list PyVal * Calls)) w
                   = (Ret (r', c0), w)).
  { destruct (String.eqb order "post").
    - apply bind_Ret_inv in H as (v & w4 & H4 & H).
      pose proof (unchanged_run _ _ _ _ (visited_value_unchanged _ _) H4) as ->.
      apply ret_inv in H as [[= -> ->] ->]. split; [reflexivity|].
      intros c0. rewrite (bind_run _ _ _ _ _ H4). reflexivity.
    - apply ret_inv in H as [[= -> ->] ->]. split; [reflexivity|].
      intros c0. reflexivity. }
  destruct Hend as [-> Hend]. split; [reflexivity|].
  intros c0. rewrite Hself, Eu. unfold call_func at 1.
  rewrite bind_ret_run. cbn [fst snd].
  rewrite (bind_run _ _ _ _ _ H1).
  rewrite (bind_run _ _ _ _ _ H2).
  rewrite (bind_run _ _ _ _ _ (H3 c0)).
  apply Hend.
Qed.

Lemma quiet_layer_level self rm :
  forall queue level next c level' next' c' w w',
    layer_level self true rm queue (level, next, c) w
    = (Ret (level', next', c'), w') ->
    w' = w /\
    forall c0,
      layer_level self false rm queue (level, next, c0) w
      = (Ret (level', next', c0), w).
Proof.
  induction queue as [|u queue IH];
    intros level next c level' next' c' w w' H; cbn [layer_level] in *.
  - apply ret_inv in H as [[= -> -> ->] ->]. split; reflexivity.
  - apply bind_Ret_inv in H as (m & w1 & H1 & H).
    pose proof H1 as H1'. apply get_self_inv in H1' as [-> _].
    apply bind_Ret_inv in H as (current & w2 & H2 & H).
    assert (w2 = w) as ->.
    { unfold py_getitem in H2. destruct (dict_get u (items m));
        [apply ret_inv in H2 as [_ ->]; reflexivity | discriminate]. }
    apply bind_Ret_inv in H as (v & w3 & H3 & H).
    pose proof (unchanged_run _ _ _ _ (visited_value_unchanged _ _) H3) as ->.
    apply bind_Ret_inv in H as (it & w4 & H4 & H).
    pose proof H4 as H4'. apply get_item_inv in H4' as [-> _].
    apply bind_Ret_inv in H as (calls1 & w5 & H5 & H).
    apply (unchanged_run _ _ _ _ (call_func_unchanged _ _ _ _)) in H5 as ->.
    apply IH in H as [-> H]. split; [reflexivity|].
    intros c0.
    rewrite (bind_run _ _ _ _ _ H1), (bind_run _ _ _ _ _ H2),
      (bind_run _ _ _ _ _ H3), (bind_run _ _ _ _ _ H4).
    unfold call_func at 1. rewrite bind_ret_run. apply H.
Qed.

Lemma quiet_layer_loop self rm :
  forall fuel queue,
    quiet (layer_loop fuel self true rm queue)
          (layer_loop fuel self false rm queue).
Proof.
  induction fuel as [|fuel IH]; intros queue r c r' c' w w' H;
    destruct queue as [|u queue]; cbn [layer_loop] in *; try discriminate.
  - apply ret_inv in H as [[= -> ->] ->]. split; reflexivity.
  - apply ret_inv in H as [[= -> ->] ->]. split; reflexivity.
  - apply bind_Ret_inv in H as ([[level next] c1] & w1 & H1 & H).
    apply quiet_layer_level in H1 as [-> H1].
    apply IH in H as [-> H]. split; [reflexivity|].
    intros c0. rewrite (bind_run _ _ _ _ _ (H1 c0)). apply H.
Qed.

(** Whatever [traverse] returns with a visitor, it returns without one,
    and then it calls nothing. *)
Lemma traverse_without_visitor fuel self u order rm r calls w w' :
  TreeMemory_traverse fuel self u order true rm w = (Ret (r, calls), w') ->
  w' = w /\
  TreeMemory_traverse fuel self u order false rm w = (Ret (r, []), w).
Proof.
  unfold TreeMemory_traverse. cbv zeta. intros H.
  apply bind_Ret_inv in H as ([] & w1 & H1 & H).
  pose proof H1 as H1'. unfold py_assert in H1'.
  destruct (str_in _ _); [|discriminate].
  apply ret_inv in H1' as [_ ->].
  rewrite (bind_run _ _ _ _ _ H1).
  destruct (String.eqb (str_lower order) "layer").
  - apply bind_Ret_inv in H as ([r1 c1] & w1 & H2 & H).
    apply ret_inv in H as [[= -> ->] ->]. cbn [fst snd] in *.
    unfold layer_traverse in *.
    apply bind_Ret_inv in H2 as (m & w2 & Hm & H2).
    pose proof Hm as Hm'. apply get_self_inv in Hm' as [-> _].
    assert (Hin : w1 = w /\
                  (m0 <- get_self self ;;
                   if dict_mem u (items m0)
                   then layer_loop fuel self false rm [u] ([], [])
                   else ret ([], [])) w = (Ret (r1, []), w)).
    { rewrite (bind_run _ _ _ _ _ Hm).
      destruct (dict_mem u (items m)).
      - apply quiet_layer_loop in H2 as [-> H2]. auto.
      - apply ret_inv in H2 as [[= -> ->] ->]. auto. }
    destruct Hin as [-> Hin]. rewrite (bind_run _ _ _ _ _ Hin). auto.
  - apply bind_Ret_inv in H as ([r1 c1] & w1 & H2 & H).
    apply ret_inv in H as [[= -> ->] ->]. cbn [fst snd] in *.
    apply quiet_recursive_traverse in H2 as [-> H2].
    rewrite (bind_run _ _ _ _ _ (H2 [])). auto.
Qed.

Lemma silent_children visit :
  (forall u, silent (visit u)) ->
  forall uids, silent (traverse_children visit uids).
Proof.
  intros Hv. induction uids as [|u uids IH]; intros r c r' c' w w' H;
    cbn [traverse_children] in *.
  - apply ret_inv in H as [[= -> ->] ->]. auto.
  - apply bind_Ret_inv in H as ([r1 c1] & w1 & H1 & H).
    apply Hv in H1 as [-> ->]. apply IH in H as [-> ->]. auto.
Qed.

Lemma silent_recursive_traverse self rm order :
  forall fuel u, silent (recursive_traverse fuel self false rm order u).
Proof.
  induction fuel as [|fuel IH]; intros u r c r' c' w w' H;
    cbn [recursive_traverse] in *; [discriminate|].
  apply bind_Ret_inv in H as (m & w1 & H1 & H).
  apply get_self_inv in H1 as [-> Hm].
  destruct (dict_get u (items m)) as [current|].
  2:{ apply ret_inv in H as [[= -> ->] ->]. auto. }
  unfold call_func at 1 in H. rewrite bind_ret_run in H. cbn [fst snd] in H.
  apply bind_Ret_inv in H as (results1 & w1 & H1 & H).
  assert (w1 = w) as ->.
  { destruct (String.eqb order "pre").
    - apply bind_Ret_inv in H1 as (v & w2 & H2 & H1).
      apply (unchanged_run _ _ _ _ (visited_value_unchanged _ _)) in H2 as ->.
      apply ret_inv in H1 as [_ ->]. reflexivity.
    - apply ret_inv in H1 as [_ ->]. reflexivity. }
  apply bind_Ret_inv in H as (it & w2 & H2 & H).
  apply get_item_inv in H2 as [-> _].
  apply bind_Ret_inv in H as ([r3 c3] & w3 & H3 & H).
  apply (silent_children _ IH) in H3 as [-> ->].
  destruct (String.eqb order "post").
  - apply bind_Ret_inv in H as (v & w4 & H4 & H).
    apply (unchanged_run _ _ _ _ (visited_value_unchanged _ _)) in H4 as ->.
    apply ret_inv in H as [[= -> ->] ->]. auto.
  - apply ret_inv in H as [[= -> ->] ->]. auto.
Qed.

Lemma silent_layer_level self rm :
  forall queue level next c level' next' c' w w',
    layer_level self false rm queue (level, next, c) w
    = (Ret (level', next', c'), w') ->
    w' = w /\ c' = c.
Proof.
  induction queue as [|u queue IH];
    intros level next c level' next' c' w w' H; cbn [layer_level] in *.
  - apply ret_inv in H as [[= -> -> ->] ->]. auto.
  - apply bind_Ret_inv in H as (m & w1 & H1 & H).
    apply get_self_inv in H1 as [-> _].
    apply bind_Ret_inv in H as (current & w2 & H2 & H).
    assert (w2 = w) as ->.
    { unfold py_getitem in H2. destruct (dict_get u (items m));
        [apply ret_inv in H2 as [_ ->]; reflexivity | discriminate]. }
    apply bind_Ret_inv in H as (v & w3 & H3 & H).
    apply (unchanged_run _ _ _ _ (visited_value_unchanged _ _)) in H3 as ->.
    apply bind_Ret_inv in H as (it & w4 & H4 & H).
    apply get_item_inv in H4 as [-> _].
    unfold call_func at 1 in H. rewrite bind_ret_run in H.
    apply IH in H. exact H.
Qed.

Lemma silent_layer_loop self rm :
  forall fuel queue, silent (layer_loop fuel self false rm queue).
Proof.
  induction fuel as [|fuel IH]; intros queue r c r' c' w w' H;
    destruct queue as [|u queue]; cbn [layer_loop] in *; try discriminate.
  - apply ret_inv in H as [[= -> ->] ->]. auto.
  - apply ret_inv in H as [[= -> ->] ->]. auto.
  - apply bind_Ret_inv in H as ([[level next] c1] & w1 & H1 & H).
    apply silent_layer_level in H1 as [-> ->].
    apply IH in H. exact H.
Qed.

(** Whenever [traverse] without a visitor returns, it has changed nothing
    and called nothing. *)
Lemma traverse_silent fuel self u order rm r calls w w' :
  TreeMemory_traverse fuel self u order false rm w = (Ret (r, calls), w') ->
  w' = w /\ calls = [].
Proof.
  unfold TreeMemory_traverse. cbv zeta. intros H.
  apply bind_Ret_inv in H as ([] & w1 & H1 & H).
  unfold py_assert in H1.
  destruct (str_in _ _); [|discriminate].
  apply ret_inv in H1 as [_ ->].
  destruct (String.eqb (str_lower order) "layer").
  - apply bind_Ret_inv in H as ([r1 c1] & w1 & H2 & H).
    apply ret_inv in H as [[= -> ->] ->]. cbn [fst snd] in *.
    unfold layer_traverse in H2.
    apply bind_Ret_inv in H2 as (m & w2 & Hm & H2).
    apply get_self_inv in Hm as [-> _].
    destruct (dict_mem u (items m)).
    + apply silent_layer_loop in H2. exact H2.
    + apply ret_inv in H2 as [[= -> ->] ->]. auto.
  - apply bind_Ret_inv in H as ([r1 c1] & w1 & H2 & H).
    apply ret_inv in H as [[= -> ->] ->]. cbn [fst snd] in *.
    apply silent_recursive_traverse in H2. exact H2.
Qed.


